(** * Approximated polygon offsetting: [Approx_offset_base_2]

    A shallow embedding of
    [Minkowski_sum_2/include/CGAL/Minkowski_sum_2/Approx_offset_base_2.h]
    and the properties of its convolution-cycle construction.

    The number type [NT] of the kernel is an exact rational field and is
    embedded as [Q]; comparisons and signs are the semantic ones of [Q].
    The [double] computations of the source are embedded with the IEEE-754
    binary64 operations of [SpecFloat].  Failing checks, divisions by zero
    and conversions without a defined result end a run with [Abort]. *)

From Stdlib Require Import ZArith QArith Qabs Qround Qfield List Bool Lia Lra Lqa Psatz.
From Stdlib Require Import SpecFloat.
Import ListNotations.

Open Scope Q_scope.

(** ** Outcomes of a run *)

Inductive failure : Type :=
| Precondition_violation   (* CGAL_precondition *)
| Assertion_violation      (* CGAL_assertion *)
| Division_by_zero         (* exact division by a zero number *)
| Undefined_conversion     (* double to int or to NT without a value *)
| Invalid_dereference.     (* circulator over no vertex *)

Inductive outcome (A : Type) : Type :=
| Done (a : A)
| Abort (f : failure)
| Out_of_fuel.

Arguments Done {A} a.
Arguments Abort {A} f.
Arguments Out_of_fuel {A}.

Definition bind {A B : Type} (m : outcome A) (k : A -> outcome B) : outcome B :=
  match m with
  | Done a => k a
  | Abort f => Abort f
  | Out_of_fuel => Out_of_fuel
  end.

Notation "x <- m ;; k" := (bind m (fun x => k))
  (at level 61, m at next level, right associativity).
Notation "' p <- m ;; k" := (bind m (fun x => let p := x in k))
  (at level 61, p pattern, m at next level, right associativity).

Definition CGAL_precondition (b : bool) : outcome unit :=
  if b then Done tt else Abort Precondition_violation.

Definition CGAL_assertion (b : bool) : outcome unit :=
  if b then Done tt else Abort Assertion_violation.

(** ** Signs and comparisons of the exact number type *)

Inductive Sign : Type := NEGATIVE | ZERO | POSITIVE.
Inductive Comparison_result : Type := SMALLER | EQUAL | LARGER.
Inductive Orientation : Type := CLOCKWISE | COLLINEAR | COUNTERCLOCKWISE.

Definition Sign_eqb (s t : Sign) : bool :=
  match s, t with
  | NEGATIVE, NEGATIVE | ZERO, ZERO | POSITIVE, POSITIVE => true
  | _, _ => false
  end.

Definition Comparison_eqb (s t : Comparison_result) : bool :=
  match s, t with
  | SMALLER, SMALLER | EQUAL, EQUAL | LARGER, LARGER => true
  | _, _ => false
  end.

Definition Orientation_eqb (s t : Orientation) : bool :=
  match s, t with
  | CLOCKWISE, CLOCKWISE | COLLINEAR, COLLINEAR
  | COUNTERCLOCKWISE, COUNTERCLOCKWISE => true
  | _, _ => false
  end.

Module NT.

Definition compare (a b : Q) : Comparison_result :=
  match a ?= b with
  | Lt => SMALLER
  | Eq => EQUAL
  | Gt => LARGER
  end.

Definition sign (a : Q) : Sign :=
  match a ?= 0 with
  | Lt => NEGATIVE
  | Eq => ZERO
  | Gt => POSITIVE
  end.

Definition square (a : Q) : Q := a * a.

Definition abs (a : Q) : Q := Qabs a.

(** Exact division; the divisor must not be zero. *)
Definition div (a b : Q) : outcome Q :=
  if Qeq_bool b 0 then Abort Division_by_zero else Done (a / b).

Definition of_int (n : Z) : Q := inject_Z n.

End NT.

(** ** The [double] and [int] types *)

Module Double.

Definition double : Type := spec_float.

Definition prec : Z := 53%Z.
Definition emax : Z := 1024%Z.

Definition mul : double -> double -> double := SFmul prec emax.
Definition add : double -> double -> double := SFadd prec emax.
Definition sub : double -> double -> double := SFsub prec emax.
Definition div : double -> double -> double := SFdiv prec emax.
Definition sqrt : double -> double := SFsqrt prec emax.
Definition fabs : double -> double := SFabs.
Definition ltb : double -> double -> bool := SFltb.
Definition leb : double -> double -> bool := SFleb.
Definition zero : double := S754_zero false.

(** Conversion of an [int]; every 32-bit integer is a [double]. *)
Definition of_int (n : Z) : double := binary_normalize prec emax n 0 false.

(** The literal [0.5]. *)
Definition half : double := binary_normalize prec emax 1 (-1) false.

(** [CGAL::sign] of a [double]. *)
Definition sign (d : double) : Sign :=
  if ltb d zero then NEGATIVE
  else if ltb zero d then POSITIVE
  else ZERO.

(** The integer part of a finite [double], rounded toward zero. *)
Definition truncate (d : double) : option Z :=
  match d with
  | S754_zero _ => Some 0%Z
  | S754_finite s m e =>
      let v := match e with
               | Zneg p => Z.quot (Zpos m) (Z.pow_pos 2 p)
               | _ => (Zpos m * 2 ^ e)%Z
               end in
      Some (if s then (- v)%Z else v)
  | _ => None
  end.

Definition int_min : Z := (- 2 ^ 31)%Z.
Definition int_max : Z := (2 ^ 31 - 1)%Z.

(** [static_cast<int>]: defined when the integer part is an [int]. *)
Definition to_int (d : double) : outcome Z :=
  match truncate d with
  | Some v =>
      if ((int_min <=? v) && (v <=? int_max))%Z then Done v
      else Abort Undefined_conversion
  | None => Abort Undefined_conversion
  end.

(** The exact value of a finite [double], as the constructor [NT (double)]
    takes it. *)
Definition to_NT (d : double) : outcome Q :=
  match d with
  | S754_zero _ => Done 0
  | S754_finite s m e =>
      let v := match e with
               | Zneg p => Zpos m # Pos.pow 2 p
               | _ => inject_Z (Zpos m * 2 ^ e)
               end in
      Done (if s then - v else v)
  | _ => Abort Undefined_conversion
  end.

End Double.

Abbreviation double := Double.double.

(** ** The refinement loop of the approximated edge length

    Lines 265-274: [app_err] is kept equal to [sqr_d - app_d^2]; the loop
    runs while the error exceeds [err_bound] or [app_d] does not exceed both
    absolute coordinate differences. *)

Definition keep_refining (err_bound abs_delta_x abs_delta_y app_d app_err : Q)
  : bool :=
  Comparison_eqb (NT.compare (NT.abs app_err) err_bound) LARGER
  || negb (Comparison_eqb (NT.compare app_d abs_delta_x) LARGER)
  || negb (Comparison_eqb (NT.compare app_d abs_delta_y) LARGER).

Fixpoint refine_app_d (fuel : nat)
  (sqr_d err_bound abs_delta_x abs_delta_y app_d app_err : Q)
  : outcome (Q * Q) :=
  if keep_refining err_bound abs_delta_x abs_delta_y app_d app_err then
    match fuel with
    | O => Out_of_fuel
    | S fuel' =>
        q <- NT.div sqr_d app_d ;;
        let app_d := (app_d + q) / 2 in
        let app_err := sqr_d - NT.square app_d in
        refine_app_d fuel' sqr_d err_bound abs_delta_x abs_delta_y
          app_d app_err
    end
  else Done (app_d, app_err).

(** The acceptance predicate of the specification. *)
Definition accepted (sqr_d err_bound delta_x delta_y app_d : Q) : Prop :=
  Qabs (sqr_d - app_d * app_d) <= err_bound
  /\ Qabs delta_x < app_d /\ Qabs delta_y < app_d.

(** One step of the loop body on [app_d], and the powers of four that bound
    the number of steps. *)
Definition newton_step (sqr_d a : Q) : Q := (a + sqr_d / a) / 2.

Fixpoint pow4 (n : nat) : Q :=
  match n with
  | O => 1
  | S k => 4 * pow4 k
  end.

(** ** Geometric objects *)

(** [Kernel::Point_2] and [Kernel::Line_2] ([a x + b y + c = 0]) of a
    Cartesian kernel over [NT]. *)
Record Point_2 : Type := mk_Point_2 { pt_x : Q; pt_y : Q }.
Record Line_2 : Type := mk_Line_2 { line_a : Q; line_b : Q; line_c : Q }.

(** [Traits_2::Point_2]: its coordinates are of type [CoordNT]; every point
    built here has rational coordinates. *)
Definition Tr_point_2 : Type := Point_2.

(** [Traits_2::Curve_2], built by the constructor of a circular arc:
    centre, radius, orientation, source and target. *)
Record Curve_2 : Type := mk_Curve_2 {
  arc_center : Point_2;
  arc_radius : Q;
  arc_orientation : Orientation;
  arc_source : Tr_point_2;
  arc_target : Tr_point_2
}.

(** [Traits_2::X_monotone_curve_2]: a segment between two kernel points, or
    an x-monotone piece of a circular arc. *)
Inductive X_monotone_curve_2 : Type :=
| X_segment (source target : Point_2)
| X_arc (center : Point_2) (radius : Q) (orient : Orientation)
        (source target : Tr_point_2).

(** [CGAL::Object] and [CGAL::assign]. *)
Inductive Object : Type :=
| Object_empty
| Object_point (p : Point_2)
| Object_line (l : Line_2)
| Object_x_monotone_curve (c : X_monotone_curve_2).

Definition assign_point (obj : Object) : option Point_2 :=
  match obj with
  | Object_point p => Some p
  | _ => None
  end.

Definition assign_x_monotone_curve (obj : Object) : option X_monotone_curve_2 :=
  match obj with
  | Object_x_monotone_curve c => Some c
  | _ => None
  end.

(** [CGAL::assign] followed by [CGAL_assertion (assign_success)]. *)
Definition asserted {A : Type} (o : option A) : outcome A :=
  match o with
  | Some a => Done a
  | None => Abort Assertion_violation
  end.

(** The kernel: conversion to [double], the orientation of a polygon and the
    functors the function takes from it. *)
Class Kernel : Type := {
  to_double : Q -> double;
  orientation : list Point_2 -> Orientation;
  f_intersect : Line_2 -> Line_2 -> Object;
  f_line : Point_2 -> Point_2 -> Line_2;
  f_perp_line : Line_2 -> Point_2 -> Line_2;
  f_comp_xy : Point_2 -> Point_2 -> Comparison_result
}.

(** The traits class [Gps_circle_segment_traits_2]. *)
Class Traits : Type := {
  f_make_x_monotone : Curve_2 -> list Object;
  is_directed_right : X_monotone_curve_2 -> bool
}.

(** ** Labels *)

(** [unsigned int]: 32 bits, increments wrap around. *)
Definition uint_modulus : Z := (2 ^ 32)%Z.
Definition uint_incr (n : Z) : Z := ((n + 1) mod uint_modulus)%Z.

Record X_curve_label : Type := mk_X_curve_label {
  label_right : bool;
  label_component : Z;
  label_index : Z;
  label_is_last : bool
}.

(** Modelled from the spec: the constructor of [X_curve_label] in
    [Minkowski_sum_2/Labels.h], which is not part of the sources at hand.
    A label carries the direction flag, the cycle id, the sequence index and
    the is-last flag; only a curve labelled with an explicit flag can be the
    last of its cycle, so the three-argument form leaves the flag false. *)
Definition X_curve_label_3 (is_right : bool) (component index : Z)
  : X_curve_label :=
  mk_X_curve_label is_right component index false.

Definition X_curve_label_4 (is_right : bool) (component index : Z)
  (is_last : bool) : X_curve_label :=
  mk_X_curve_label is_right component index is_last.

Record Labeled_curve_2 : Type := mk_Labeled_curve_2 {
  lc_curve : X_monotone_curve_2;
  lc_label : X_curve_label
}.

(** ** Output iterators

    [*oi = c] is [oi_assign], [++oi] and [oi++] are [oi_incr]. *)
Class OutputIterator (It : Type) : Type := {
  oi_assign : It -> Labeled_curve_2 -> It;
  oi_incr : It -> It
}.

(** [std::back_insert_iterator]: an assignment appends to the container and
    an increment does nothing. *)
Record back_insert_iterator : Type := back_inserter {
  container : list Labeled_curve_2
}.

#[export] Instance back_insert_OutputIterator
  : OutputIterator back_insert_iterator := {
  oi_assign it c := back_inserter (container it ++ [c]);
  oi_incr it := it
}.

(** A pointer into an array of curves (or an iterator of a sized vector or
    list): an assignment overwrites the cell at the position, an increment
    moves to the next cell.  Cells not written yet hold [None]; a position
    outside the array has no cell to write. *)
Record array_iterator : Type := mk_array_iterator {
  cells : list (option Labeled_curve_2);
  position : nat
}.

Fixpoint write_cell (l : list (option Labeled_curve_2)) (i : nat)
  (c : Labeled_curve_2) : list (option Labeled_curve_2) :=
  match l, i with
  | [], _ => []
  | _ :: l', O => Some c :: l'
  | x :: l', S i' => x :: write_cell l' i' c
  end.

#[export] Instance array_OutputIterator : OutputIterator array_iterator := {
  oi_assign it c :=
    mk_array_iterator (write_cell (cells it) (position it) c) (position it);
  oi_incr it := mk_array_iterator (cells it) (S (position it))
}.

(** ** Polygons and vertex circulators *)

Definition Polygon_2 : Type := list Point_2.

(** A [Vertex_circulator] is the index of a vertex; [++] and [--] wrap
    around the container. *)
Definition circ_incr (pgn : Polygon_2) (i : nat) : nat :=
  if (S i <? length pgn)%nat then S i else O.

Definition circ_decr (pgn : Polygon_2) (i : nat) : nat :=
  match i with
  | O => pred (length pgn)
  | S i' => i'
  end.

Definition circ_deref (pgn : Polygon_2) (i : nat) : outcome Point_2 :=
  match nth_error pgn i with
  | Some p => Done p
  | None => Abort Invalid_dereference
  end.

(** ** The class [Approx_offset_base_2] *)

Record Approx_offset_base_2 : Type := mk_Approx_offset_base_2 {
  _eps : double;           (* An upper bound on the approximation error. *)
  _inv_sqrt_eps : Z        (* The inverse squared root of _eps. *)
}.

(** The constructor, lines 81-89. *)
Definition construct (eps : double) : outcome Approx_offset_base_2 :=
  _ <- CGAL_precondition (Sign_eqb (Double.sign eps) POSITIVE) ;;
  n <- Double.to_int (Double.div (Double.of_int 1) (Double.sqrt eps)) ;;
  Done (mk_Approx_offset_base_2 eps (if (n =? 0)%Z then 1%Z else n)).

(** ** The offset of one edge, lines 177-359 *)

(** One segment ([n_segments = 1]: [seg1], [dir_right1]) or two
    ([n_segments = 2]: also [seg2], [dir_right2]). *)
Inductive edge_segments : Type :=
| One_segment (seg1 : X_monotone_curve_2) (dir_right1 : bool)
| Two_segments (seg1 : X_monotone_curve_2) (dir_right1 : bool)
               (seg2 : X_monotone_curve_2) (dir_right2 : bool).

Definition n_segments (s : edge_segments) : Z :=
  match s with
  | One_segment _ _ => 1%Z
  | Two_segments _ _ _ _ => 2%Z
  end.

Record edge_offset : Type := mk_edge_offset {
  op1 : Point_2;       (* the offset point corresponding to (x1, y1) *)
  op2 : Point_2;       (* the offset point corresponding to (x2, y2) *)
  segments : edge_segments
}.

(** [1 << (8*sizeof(int) - 2)] with a four-byte [int]. *)
Definition max_int : Z := Z.shiftl 1 (8 * 4 - 2).

(** Lines 258-261: the denominator is halved while [dd * denom] would not
    fit an [int]. *)
Fixpoint halve_denom (fuel : nat) (dd : double) (denom : Z) : outcome Z :=
  if Double.ltb (Double.div (Double.of_int max_int) (Double.of_int denom)) dd
  then
    match fuel with
    | O => Out_of_fuel
    | S fuel' => halve_denom fuel' dd (Z.quot denom 2)
    end
  else Done denom.

(** Lines 297-308: the approximation is taken from below when [x1 > x2] and
    from above otherwise. *)
Definition bias_app_d (sign_delta_x sign_app_err : Sign) (sqr_d app_d : Q)
  : outcome Q :=
  if Sign_eqb sign_delta_x NEGATIVE then
    if Sign_eqb sign_app_err NEGATIVE then NT.div sqr_d app_d
    else Done app_d
  else
    if Sign_eqb sign_app_err POSITIVE then NT.div sqr_d app_d
    else Done app_d.

(** Lines 321-325 and 329-333: the point at angle [phi] around [(x, y)],
    from [t = tan (phi / 2)]. *)
Definition rotate_offset (x y r tan_half_phi : Q) : outcome Point_2 :=
  let sqr_tan_half_phi := NT.square tan_half_phi in
  sin_phi <- NT.div (2 * tan_half_phi) (1 + sqr_tan_half_phi) ;;
  cos_phi <- NT.div (1 - sqr_tan_half_phi) (1 + sqr_tan_half_phi) ;;
  Done (mk_Point_2 (x + r * cos_phi) (y + r * sin_phi)).

(** Lines 193-210: a vertical edge.  The offset edge lies at a distance [r]
    to the right if [y2 > y1], and to the left if [y2 < y1]. *)
Definition vertical_edge (curr next : Point_2) (r : Q) (sign_delta_y : Sign)
  : edge_offset :=
  let x1 := pt_x curr in
  let y1 := pt_y curr in
  let x2 := pt_x next in
  let y2 := pt_y next in
  let '(op1, op2) :=
    if Sign_eqb sign_delta_y POSITIVE
    then (mk_Point_2 (x1 + r) y1, mk_Point_2 (x2 + r) y2)
    else (mk_Point_2 (x1 - r) y1, mk_Point_2 (x2 - r) y2) in
  mk_edge_offset op1 op2
    (One_segment (X_segment op1 op2) (Sign_eqb sign_delta_y POSITIVE)).

(** Lines 214-231: a horizontal edge.  The offset edge lies at a distance
    [r] to the bottom if [x2 > x1], and to the top if [x2 < x1]. *)
Definition horizontal_edge (curr next : Point_2) (r : Q) (sign_delta_x : Sign)
  : edge_offset :=
  let x1 := pt_x curr in
  let y1 := pt_y curr in
  let x2 := pt_x next in
  let y2 := pt_y next in
  let '(op1, op2) :=
    if Sign_eqb sign_delta_x POSITIVE
    then (mk_Point_2 x1 (y1 - r), mk_Point_2 x2 (y2 - r))
    else (mk_Point_2 x1 (y1 + r), mk_Point_2 x2 (y2 + r)) in
  mk_edge_offset op1 op2
    (One_segment (X_segment op1 op2) (Sign_eqb sign_delta_x POSITIVE)).

(** The squared distance of two points, for the statements below. *)
Definition squared_distance (p q : Point_2) : Q :=
  NT.square (pt_x p - pt_x q) + NT.square (pt_y p - pt_y q).

Section Offset.

Context {K : Kernel} {T : Traits}.

Variable self : Approx_offset_base_2.

(** Lines 247-264: the error bound and the first approximation of the
    edge length, both computed on [double]s. *)
Definition first_approximation (fuel : nat) (sqr_d delta_x delta_y : Q)
  : outcome (Q * Q) :=
  let dd := Double.sqrt (to_double sqr_d) in
  let derr_bound :=
    Double.mul
      (Double.mul (Double.mul (Double.of_int 2) dd) (_eps self))
      (Double.fabs (Double.div (Double.sub dd (to_double delta_y))
                               (to_double delta_x))) in
  err_bound <- Double.to_NT derr_bound ;;
  denom <- halve_denom fuel dd (_inv_sqrt_eps self) ;;
  n <- Double.to_int
         (Double.add (Double.mul dd (Double.of_int denom)) Double.half) ;;
  app_d <- NT.div (NT.of_int n) (NT.of_int denom) ;;
  Done (err_bound, app_d).

(** Lines 235-358: an edge that is neither vertical nor horizontal. *)
Definition general_edge (fuel : nat) (curr next : Point_2) (r : Q)
  (delta_x delta_y sqr_d : Q) (sign_delta_x sign_delta_y : Sign)
  : outcome edge_offset :=
  let x1 := pt_x curr in
  let y1 := pt_y curr in
  let x2 := pt_x next in
  let y2 := pt_y next in
  let abs_delta_x :=
    if Sign_eqb sign_delta_x POSITIVE then delta_x else - delta_x in
  let abs_delta_y :=
    if Sign_eqb sign_delta_y POSITIVE then delta_y else - delta_y in
  '(err_bound, app_d) <- first_approximation fuel sqr_d delta_x delta_y ;;
  let app_err := sqr_d - NT.square app_d in
  '(app_d, app_err) <-
    refine_app_d fuel sqr_d err_bound abs_delta_x abs_delta_y
      app_d app_err ;;
  let sign_app_err := NT.sign app_err in
  if Sign_eqb sign_app_err ZERO then
    trans_x <- NT.div (r * delta_y) app_d ;;
    trans_y <- NT.div (r * (- delta_x)) app_d ;;
    let op1 := mk_Point_2 (x1 + trans_x) (y1 + trans_y) in
    let op2 := mk_Point_2 (x2 + trans_x) (y2 + trans_y) in
    Done (mk_edge_offset op1 op2
            (One_segment (X_segment op1 op2)
                         (Sign_eqb sign_delta_x POSITIVE)))
  else
    app_d <- bias_app_d sign_delta_x sign_app_err sqr_d app_d ;;
    lower_tan_half_phi <- NT.div (app_d - delta_y) (- delta_x) ;;
    upper_tan_half_phi <- NT.div (- delta_x) (app_d + delta_y) ;;
    op1 <- rotate_offset x1 y1 r lower_tan_half_phi ;;
    op2 <- rotate_offset x2 y2 r upper_tan_half_phi ;;
    let l1 := f_perp_line (f_line curr op1) op1 in
    let l2 := f_perp_line (f_line next op2) op2 in
    let obj := f_intersect l1 l2 in
    mid_p <- asserted (assign_point obj) ;;
    Done (mk_edge_offset op1 op2
            (Two_segments
               (X_segment op1 mid_p)
               (Comparison_eqb (f_comp_xy op1 mid_p) SMALLER)
               (X_segment mid_p op2)
               (Comparison_eqb (f_comp_xy mid_p op2) SMALLER))).

(** Lines 177-359: the offset of the edge from [*curr] to [*next]. *)
Definition offset_edge (fuel : nat) (curr next : Point_2) (r : Q)
  : outcome edge_offset :=
  let x1 := pt_x curr in
  let y1 := pt_y curr in
  let x2 := pt_x next in
  let y2 := pt_y next in
  let delta_x := x2 - x1 in
  let delta_y := y2 - y1 in
  let sqr_d := NT.square delta_x + NT.square delta_y in
  let sign_delta_x := NT.sign delta_x in
  let sign_delta_y := NT.sign delta_y in
  if Sign_eqb sign_delta_x ZERO then
    _ <- CGAL_assertion (negb (Sign_eqb sign_delta_y ZERO)) ;;
    Done (vertical_edge curr next r sign_delta_y)
  else if Sign_eqb sign_delta_y ZERO then
    Done (horizontal_edge curr next r sign_delta_x)
  else
    general_edge fuel curr next r delta_x delta_y sqr_d
      sign_delta_x sign_delta_y.

End Offset.

(** ** The runs of a general edge, for the statements below *)

(** The values a general edge goes through when it yields two segments. *)
Record two_segment_run {K : Kernel} (self : Approx_offset_base_2)
  (fuel : nat) (curr next : Point_2) (r delta_x delta_y sqr_d : Q)
  (sign_delta_x sign_delta_y : Sign) (e : edge_offset)
  (err_bound app_d app_err used_d : Q) : Prop := {
  run_first :
    exists app_d0,
      first_approximation self fuel sqr_d delta_x delta_y
      = Done (err_bound, app_d0)
      /\ refine_app_d fuel sqr_d err_bound
           (if Sign_eqb sign_delta_x POSITIVE then delta_x else - delta_x)
           (if Sign_eqb sign_delta_y POSITIVE then delta_y else - delta_y)
           app_d0 (sqr_d - NT.square app_d0)
         = Done (app_d, app_err);
  run_nonzero : Sign_eqb (NT.sign app_err) ZERO = false;
  run_bias :
    bias_app_d sign_delta_x (NT.sign app_err) sqr_d app_d = Done used_d;
  run_points :
    exists lower_tan_half_phi upper_tan_half_phi,
      NT.div (used_d - delta_y) (- delta_x) = Done lower_tan_half_phi
      /\ NT.div (- delta_x) (used_d + delta_y) = Done upper_tan_half_phi
      /\ rotate_offset (pt_x curr) (pt_y curr) r lower_tan_half_phi
         = Done (op1 e)
      /\ rotate_offset (pt_x next) (pt_y next) r upper_tan_half_phi
         = Done (op2 e)
}.

(** The values a general edge goes through when it yields one segment. *)
Record one_segment_run {K : Kernel} (self : Approx_offset_base_2)
  (fuel : nat) (curr next : Point_2) (r delta_x delta_y sqr_d : Q)
  (sign_delta_x sign_delta_y : Sign) (e : edge_offset)
  (err_bound app_d app_err : Q) : Prop := {
  exact_first :
    exists app_d0,
      first_approximation self fuel sqr_d delta_x delta_y
      = Done (err_bound, app_d0)
      /\ refine_app_d fuel sqr_d err_bound
           (if Sign_eqb sign_delta_x POSITIVE then delta_x else - delta_x)
           (if Sign_eqb sign_delta_y POSITIVE then delta_y else - delta_y)
           app_d0 (sqr_d - NT.square app_d0)
         = Done (app_d, app_err);
  exact_zero : Sign_eqb (NT.sign app_err) ZERO = true;
  exact_nonzero_d : ~ app_d == 0;
  exact_result :
    let op1 := mk_Point_2 (pt_x curr + r * delta_y / app_d)
                          (pt_y curr + r * (- delta_x) / app_d) in
    let op2 := mk_Point_2 (pt_x next + r * delta_y / app_d)
                          (pt_y next + r * (- delta_x) / app_d) in
    e = mk_edge_offset op1 op2
          (One_segment (X_segment op1 op2) (Sign_eqb sign_delta_x POSITIVE))
}.

(** ** The convolution cycle, lines 104-450 *)

Section Cycle.

Context {K : Kernel} {T : Traits}.
Context {It : Type} {OI : OutputIterator It}.

Variable self : Approx_offset_base_2.

(** The local variables that live across the iterations of the loop. *)
Record traversal : Type := mk_traversal {
  t_curr : nat;
  t_next : nat;
  t_curve_index : Z;
  t_oi : It;
  t_first_op : Point_2;    (* op1 for the first edge visited *)
  t_prev_op : Point_2;     (* op2 for the previous edge *)
  t_op2 : Point_2
}.

Definition seg1_of (s : edge_segments) : X_monotone_curve_2 :=
  match s with
  | One_segment seg1 _ => seg1
  | Two_segments seg1 _ _ _ => seg1
  end.

Definition dir_right1_of (s : edge_segments) : bool :=
  match s with
  | One_segment _ d => d
  | Two_segments _ d _ _ => d
  end.

(** Lines 379-390: the x-monotone pieces of a connecting arc. *)
Fixpoint emit_arcs (cycle_id : Z) (xobjs : list Object)
  (oi : It) (curve_index : Z) : outcome (It * Z) :=
  match xobjs with
  | [] => Done (oi, curve_index)
  | obj :: xobjs' =>
      xarc <- asserted (assign_x_monotone_curve obj) ;;
      let oi :=
        oi_assign oi
          (mk_Labeled_curve_2 xarc
             (X_curve_label_3 (is_directed_right xarc) cycle_id
                curve_index)) in
      let oi := oi_incr oi in
      let curve_index := uint_incr curve_index in
      emit_arcs cycle_id xobjs' oi curve_index
  end.

(** Lines 432-447: the x-monotone pieces of the closing arc. *)
Fixpoint emit_closing_arcs (cycle_id : Z) (xobjs : list Object)
  (oi : It) (curve_index : Z) : outcome (It * Z) :=
  match xobjs with
  | [] => Done (oi, curve_index)
  | obj :: xobjs' =>
      xarc <- asserted (assign_x_monotone_curve obj) ;;
      let is_last := match xobjs' with [] => true | _ :: _ => false end in
      let oi :=
        oi_assign oi
          (mk_Labeled_curve_2 xarc
             (X_curve_label_4 (is_directed_right xarc) cycle_id
                curve_index is_last)) in
      let curve_index := uint_incr curve_index in
      emit_closing_arcs cycle_id xobjs' oi curve_index
  end.

(** Lines 393-411: the offset segment(s) of the edge. *)
Definition emit_segments (cycle_id : Z) (s : edge_segments)
  (oi : It) (curve_index : Z) : outcome (It * Z) :=
  _ <- CGAL_assertion ((n_segments s =? 1)%Z || (n_segments s =? 2)%Z) ;;
  let oi :=
    oi_assign oi
      (mk_Labeled_curve_2 (seg1_of s)
         (X_curve_label_3 (dir_right1_of s) cycle_id curve_index)) in
  let oi := oi_incr oi in
  let curve_index := uint_incr curve_index in
  match s with
  | Two_segments _ _ seg2 dir_right2 =>
      let oi :=
        oi_assign oi
          (mk_Labeled_curve_2 seg2
             (X_curve_label_3 dir_right2 cycle_id curve_index)) in
      let oi := oi_incr oi in
      let curve_index := uint_incr curve_index in
      Done (oi, curve_index)
  | One_segment _ _ => Done (oi, curve_index)
  end.

(** Lines 168-415: one iteration of the loop over the edges. *)
Definition visit_edge (fuel : nat) (pgn : Polygon_2) (r : Q)
  (cycle_id : Z) (forward : bool) (first : nat) (st : traversal)
  : outcome traversal :=
  let next :=
    if forward then circ_incr pgn (t_next st)
    else circ_decr pgn (t_next st) in
  curr_p <- circ_deref pgn (t_curr st) ;;
  next_p <- circ_deref pgn next ;;
  e <- offset_edge self fuel curr_p next_p r ;;
  '(oi, curve_index, first_op) <-
    (if (t_curr st =? first)%nat then
       Done (t_oi st, t_curve_index st, op1 e)
     else
       let arc :=
         mk_Curve_2 curr_p r COUNTERCLOCKWISE
           (mk_Point_2 (pt_x (t_prev_op st)) (pt_y (t_prev_op st)))
           (mk_Point_2 (pt_x (op1 e)) (pt_y (op1 e))) in
       '(oi, curve_index) <-
         emit_arcs cycle_id (f_make_x_monotone arc)
           (t_oi st) (t_curve_index st) ;;
       Done (oi, curve_index, t_first_op st)) ;;
  '(oi, curve_index) <- emit_segments cycle_id (segments e) oi curve_index ;;
  Done (mk_traversal next next curve_index oi first_op (op2 e) (op2 e)).

(** Lines 166-417: [do ... while (curr != first)]. *)
Fixpoint traverse (fuel : nat) (pgn : Polygon_2) (r : Q) (cycle_id : Z)
  (forward : bool) (first : nat) (steps : nat) (st : traversal)
  : outcome traversal :=
  match steps with
  | O => Out_of_fuel
  | S steps' =>
      st' <- visit_edge fuel pgn r cycle_id forward first st ;;
      if (t_curr st' =? first)%nat then Done st'
      else traverse fuel pgn r cycle_id forward first steps' st'
  end.

(** The member function [_offset_polygon]; [fuel] bounds the number of
    iterations of each of its loops. *)
Definition _offset_polygon (fuel : nat) (pgn : Polygon_2) (r : Q)
  (cycle_id : Z) (oi : It) : outcome It :=
  let forward := Orientation_eqb (orientation pgn) COUNTERCLOCKWISE in
  let first := O in
  let origin := mk_Point_2 0 0 in
  st <- traverse fuel pgn r cycle_id forward first fuel
          (mk_traversal first first 0%Z oi origin origin origin) ;;
  first_p <- circ_deref pgn first ;;
  let arc :=
    mk_Curve_2 first_p r COUNTERCLOCKWISE
      (mk_Point_2 (pt_x (t_op2 st)) (pt_y (t_op2 st)))
      (mk_Point_2 (pt_x (t_first_op st)) (pt_y (t_first_op st))) in
  '(oi, _) <-
    emit_closing_arcs cycle_id (f_make_x_monotone arc)
      (t_oi st) (t_curve_index st) ;;
  Done oi.

End Cycle.

(** ** A Cartesian kernel and a traits class to run the function on

    The kernel and the traits class are template parameters of the source;
    the instances below are the ones the examples are evaluated with. *)

Module Cartesian.

Definition Point_eqb (p q : Point_2) : bool :=
  Qeq_bool (pt_x p) (pt_x q) && Qeq_bool (pt_y p) (pt_y q).

Definition ltb (a b : Q) : bool := Comparison_eqb (NT.compare a b) SMALLER.

(** The quotient of numerator and denominator, rounded to nearest. *)
Definition to_double (q : Q) : double :=
  Double.div (Double.of_int (Qnum q)) (Double.of_int (Zpos (Qden q))).

(** Twice the signed area of the polygon. *)
Fixpoint area2 (first : Point_2) (l : list Point_2) : Q :=
  match l with
  | [] => 0
  | p :: l' =>
      let q := match l' with [] => first | q :: _ => q end in
      pt_x p * pt_y q - pt_x q * pt_y p + area2 first l'
  end.

Definition orientation (pgn : list Point_2) : Orientation :=
  match pgn with
  | [] => COLLINEAR
  | first :: _ =>
      match NT.sign (area2 first pgn) with
      | POSITIVE => COUNTERCLOCKWISE
      | ZERO => COLLINEAR
      | NEGATIVE => CLOCKWISE
      end
  end.

Definition f_line (p q : Point_2) : Line_2 :=
  mk_Line_2 (pt_y p - pt_y q) (pt_x q - pt_x p)
            (pt_x p * pt_y q - pt_y p * pt_x q).

Definition f_perp_line (l : Line_2) (p : Point_2) : Line_2 :=
  mk_Line_2 (- line_b l) (line_a l)
            (line_b l * pt_x p - line_a l * pt_y p).

Definition f_intersect (l1 l2 : Line_2) : Object :=
  let det := line_a l1 * line_b l2 - line_a l2 * line_b l1 in
  if Qeq_bool det 0 then
    if Qeq_bool (line_a l1 * line_c l2 - line_a l2 * line_c l1) 0
       && Qeq_bool (line_b l1 * line_c l2 - line_b l2 * line_c l1) 0
    then Object_line l1 else Object_empty
  else
    Object_point
      (mk_Point_2
         ((line_b l1 * line_c l2 - line_b l2 * line_c l1) / det)
         ((line_a l2 * line_c l1 - line_a l1 * line_c l2) / det)).

Definition f_comp_xy (p q : Point_2) : Comparison_result :=
  match NT.compare (pt_x p) (pt_x q) with
  | EQUAL => NT.compare (pt_y p) (pt_y q)
  | c => c
  end.

#[export] Instance kernel : Kernel := {
  to_double := to_double;
  orientation := orientation;
  f_intersect := f_intersect;
  f_line := f_line;
  f_perp_line := f_perp_line;
  f_comp_xy := f_comp_xy
}.

(** Modelled from the spec: the decomposition primitive of the traits
    class, which is not part of the sources at hand.  A counterclockwise
    arc is cut at the points of vertical tangency of its circle that lie
    inside it; the pieces are returned in order and cover the arc. *)
Definition f_make_x_monotone (arc : Curve_2) : list Object :=
  let c := arc_center arc in
  let r := Qabs (arc_radius arc) in
  let s := arc_source arc in
  let t := arc_target arc in
  let left := mk_Point_2 (pt_x c - r) (pt_y c) in
  let right := mk_Point_2 (pt_x c + r) (pt_y c) in
  let upper (p : Point_2) : bool :=
    ltb (pt_y c) (pt_y p)
    || (Qeq_bool (pt_y p) (pt_y c) && ltb (pt_x c) (pt_x p)) in
  let whole (a b : Point_2) : list Object :=
    [Object_x_monotone_curve
       (X_arc c (arc_radius arc) (arc_orientation arc) a b)] in
  let piece (a b : Point_2) : list Object :=
    if Point_eqb a b then [] else whole a b in
  match upper s, upper t with
  | true, true =>
      if ltb (pt_x t) (pt_x s) then whole s t
      else whole s left ++ whole left right ++ piece right t
  | true, false => whole s left ++ piece left t
  | false, false =>
      if ltb (pt_x s) (pt_x t) then whole s t
      else whole s right ++ whole right left ++ piece left t
  | false, true => whole s right ++ piece right t
  end.

Definition is_directed_right (c : X_monotone_curve_2) : bool :=
  match c with
  | X_segment s t => Comparison_eqb (f_comp_xy s t) SMALLER
  | X_arc _ _ _ s t => Comparison_eqb (f_comp_xy s t) SMALLER
  end.

#[export] Instance traits : Traits := {
  f_make_x_monotone := f_make_x_monotone;
  is_directed_right := is_directed_right
}.

End Cartesian.

(** ** The labels of a cycle, for the statements below *)

Definition index_of (c : Labeled_curve_2) : Z := label_index (lc_label c).
Definition component_of (c : Labeled_curve_2) : Z :=
  label_component (lc_label c).
Definition is_last_of (c : Labeled_curve_2) : bool :=
  label_is_last (lc_label c).

(** The sequence indices [first, first + 1, ...] of [n] curves, as
    [unsigned int]s. *)
Definition indices_from (first n : nat) : list Z :=
  map (fun k => (Z.of_nat k mod uint_modulus)%Z) (seq first n).

(** The curves [cyc] emitted so far for the cycle [cycle_id], after the
    curves [c0] that the container held before, with [curve_index] the next
    index: none of them is marked as the last one. *)
Definition open_cycle (c0 : list Labeled_curve_2) (cycle_id : Z)
  (cyc : list Labeled_curve_2) (oi : back_insert_iterator) (curve_index : Z)
  : Prop :=
  container oi = c0 ++ cyc
  /\ curve_index = (Z.of_nat (length cyc) mod uint_modulus)%Z
  /\ map index_of cyc = indices_from 0 (length cyc)
  /\ Forall (fun c => component_of c = cycle_id /\ is_last_of c = false) cyc.

(** The is-last flags of [n] closing pieces: only the final one is set. *)
Definition last_flags (n : nat) : list bool :=
  match n with
  | O => []
  | S k => repeat false k ++ [true]
  end.

(** ** Inputs of the examples *)

Module Examples.

(** The [double]s nearest to 0.0345 and to 1/64 (the latter is exact). *)
Definition eps_0345 : double :=
  Double.div (Double.of_int 345) (Double.of_int 10000).
Definition eps_64th : double :=
  Double.div (Double.of_int 1) (Double.of_int 64).

(** The objects [Approx_offset_base_2 (0.0345)] and
    [Approx_offset_base_2 (1.0 / 64)]. *)
Definition base_0345 : Approx_offset_base_2 :=
  mk_Approx_offset_base_2 eps_0345 5.
Definition base_64th : Approx_offset_base_2 :=
  mk_Approx_offset_base_2 eps_64th 8.

Definition unit_square : Polygon_2 :=
  [mk_Point_2 0 0; mk_Point_2 1 0; mk_Point_2 1 1; mk_Point_2 0 1].

Definition triangle_3_4_5 : Polygon_2 :=
  [mk_Point_2 0 0; mk_Point_2 4 0; mk_Point_2 4 3].

Definition two_vertices : Polygon_2 :=
  [mk_Point_2 0 0; mk_Point_2 1 0].

(** An array of [n] cells not written yet, and an iterator to its
    first cell. *)
Definition fresh_array (n : nat) : array_iterator :=
  mk_array_iterator (repeat None n) 0.

End Examples.

(** ** Further inputs of the examples *)

Module MoreExamples.

(** The object [Approx_offset_base_2 (1.0)]. *)
Definition eps_1 : double := Double.of_int 1.
Definition base_1 : Approx_offset_base_2 := mk_Approx_offset_base_2 eps_1 1.

End MoreExamples.

(** ** The iterations of the loop over the edges, for the statements below *)

Section Iterations.

Context {K : Kernel} {T : Traits}.
Context {It : Type} {OI : OutputIterator It}.

(** [k] executions of the loop body, one after the other. *)
Fixpoint repeat_visit (k : nat) (self : Approx_offset_base_2) (fuel : nat)
  (pgn : Polygon_2) (r : Q) (cycle_id : Z) (forward : bool) (first : nat)
  (st : traversal) : outcome traversal :=
  match k with
  | O => Done st
  | S k' =>
      st' <- visit_edge self fuel pgn r cycle_id forward first st ;;
      repeat_visit k' self fuel pgn r cycle_id forward first st'
  end.

End Iterations.

(** ** Chains of curves, for the statements below *)

Definition source_of (c : X_monotone_curve_2) : Point_2 :=
  match c with
  | X_segment s _ => s
  | X_arc _ _ _ s _ => s
  end.

Definition target_of (c : X_monotone_curve_2) : Point_2 :=
  match c with
  | X_segment _ t => t
  | X_arc _ _ _ _ t => t
  end.

(** Two points with equal coordinates. *)
Definition Point_equiv (p q : Point_2) : Prop :=
  pt_x p == pt_x q /\ pt_y p == pt_y q.

(** The curves of [l] lead from [s] to [t]: the first starts at [s], each
    one starts where the one before ends, and the last ends at [t]. *)
Fixpoint chain_from (s : Point_2) (l : list X_monotone_curve_2)
  (t : Point_2) : Prop :=
  match l with
  | [] => Point_equiv s t
  | c :: l' => Point_equiv s (source_of c) /\ chain_from (target_of c) l' t
  end.

(** The contract of the decomposition primitive: the pieces of an arc are
    x-monotone curves that lead from its source to its target. *)
Definition chain_decomposition (T : Traits) : Prop :=
  forall arc : Curve_2,
    exists pieces : list X_monotone_curve_2,
      f_make_x_monotone arc = map Object_x_monotone_curve pieces
      /\ chain_from (arc_source arc) pieces (arc_target arc).

(** The curves of the offset of an edge, in the order they are emitted. *)
Definition edge_curves (s : edge_segments) : list X_monotone_curve_2 :=
  match s with
  | One_segment seg1 _ => [seg1]
  | Two_segments seg1 _ seg2 _ => [seg1; seg2]
  end.

(** The curves appended to [l0] so far lead from the first offset point to
    the last one, and there is at least one. *)
Definition closed_prefix (l0 : list Labeled_curve_2)
  (st : traversal (It := back_insert_iterator)) : Prop :=
  exists cyc : list Labeled_curve_2,
    container (t_oi st) = l0 ++ cyc
    /\ cyc <> []
    /\ chain_from (t_first_op st) (map lc_curve cyc) (t_op2 st)
    /\ t_prev_op st = t_op2 st.

(** ** Signs of [double]s, for the statements below *)

(** A [double] that is not below zero: a zero of either sign, a positive
    number, plus infinity, or no number. *)
Definition not_negative (d : double) : Prop :=
  match d with
  | S754_finite true _ _ | S754_infinity true => False
  | _ => True
  end.

Module CrossingExample.

(** The object [Approx_offset_base_2 (0.2)] and an edge for it. *)
Definition eps_02 : double :=
  Double.div (Double.of_int 2) (Double.of_int 10).
Definition base_02 : Approx_offset_base_2 := mk_Approx_offset_base_2 eps_02 2.
Definition source : Point_2 := mk_Point_2 0 0.
Definition target : Point_2 := mk_Point_2 (- (1)) (- (104 # 10)).

End CrossingExample.
(** ** Lemmas on the exact number type *)

Lemma compare_LARGER_iff (a b : Q) :
  Comparison_eqb (NT.compare a b) LARGER = true <-> b < a.
Proof.
  unfold NT.compare.
  destruct (Qcompare_spec a b); simpl; split; intro; try discriminate;
    try reflexivity; lra.
Qed.

Lemma sign_spec (a : Q) :
  match NT.sign a with
  | NEGATIVE => a < 0
  | ZERO => a == 0
  | POSITIVE => 0 < a
  end.
Proof. unfold NT.sign. destruct (Qcompare_spec a 0); assumption. Qed.

Lemma div_Done (a b : Q) : ~ b == 0 -> NT.div a b = Done (a / b).
Proof.
  intro H. unfold NT.div.
  destruct (Qeq_bool b 0) eqn:E; [ | reflexivity ].
  apply Qeq_bool_iff in E. contradiction.
Qed.

Lemma div_Done_inv (a b q : Q) :
  NT.div a b = Done q -> ~ b == 0 /\ q = a / b.
Proof.
  unfold NT.div. destruct (Qeq_bool b 0) eqn:E; [ discriminate | ].
  intro H. injection H as <-. split; [ | reflexivity ].
  intro Hb. apply Qeq_bool_iff in Hb. congruence.
Qed.

Lemma keep_refining_false (err_bound adx ady app_d app_err : Q) :
  keep_refining err_bound adx ady app_d app_err = false <->
  Qabs app_err <= err_bound /\ adx < app_d /\ ady < app_d.
Proof.
  unfold keep_refining, NT.abs.
  pose proof (compare_LARGER_iff (Qabs app_err) err_bound) as H1.
  pose proof (compare_LARGER_iff app_d adx) as H2.
  pose proof (compare_LARGER_iff app_d ady) as H3.
  destruct (Comparison_eqb (NT.compare (Qabs app_err) err_bound) LARGER),
    (Comparison_eqb (NT.compare app_d adx) LARGER),
    (Comparison_eqb (NT.compare app_d ady) LARGER); simpl;
    split; intro H; try discriminate; try reflexivity;
    try (destruct H as (Ha & Hb & Hc));
    try (assert (err_bound < Qabs app_err) by (apply H1; reflexivity); lra);
    try (repeat split;
         try (apply H2; reflexivity); try (apply H3; reflexivity);
         apply Qnot_lt_le; intro Hlt; apply H1 in Hlt; discriminate);
    try (assert (adx < app_d -> False)
           by (intro Hlt; apply H2 in Hlt; discriminate); tauto);
    try (assert (ady < app_d -> False)
           by (intro Hlt; apply H3 in Hlt; discriminate); tauto).
Qed.

(** ** The Newton step on exact numbers *)

Section Newton.

Variable sqr_d : Q.
Hypothesis sqr_d_pos : 0 < sqr_d.

Lemma newton_step_pos (a : Q) : 0 < a -> 0 < newton_step sqr_d a.
Proof.
  intro Ha. unfold newton_step.
  assert (H : 0 < sqr_d / a) by (apply Qlt_shift_div_l; lra).
  revert H. generalize (sqr_d / a). intros q Hq.
  apply Qlt_shift_div_l; lra.
Qed.

Lemma newton_step_error (a : Q) :
  0 < a ->
  newton_step sqr_d a * newton_step sqr_d a - sqr_d ==
  ((a * a - sqr_d) / (2 * a)) * ((a * a - sqr_d) / (2 * a)).
Proof. intro Ha. unfold newton_step. field. lra. Qed.

Lemma newton_step_above (a : Q) :
  0 < a -> sqr_d <= newton_step sqr_d a * newton_step sqr_d a.
Proof.
  intro Ha. pose proof (newton_step_error a Ha) as E.
  set (t := (a * a - sqr_d) / (2 * a)) in *.
  assert (0 <= t * t) by nra. lra.
Qed.

Lemma newton_step_quarter (a : Q) :
  0 < a -> sqr_d <= a * a ->
  newton_step sqr_d a * newton_step sqr_d a - sqr_d <= (a * a - sqr_d) / 4.
Proof.
  intros Ha Hs. rewrite (newton_step_error a Ha).
  set (e := a * a - sqr_d) in *.
  assert (He : 0 <= e) by (unfold e; lra).
  assert (Hea : e <= a * a) by (unfold e; lra).
  assert (Haa : 0 < a * a) by nra.
  assert (E : (e / (2 * a)) * (e / (2 * a)) == (e * e) / (4 * (a * a)))
    by (field; lra).
  rewrite E. apply Qle_shift_div_r; [ lra | ].
  assert (E' : e / 4 * (4 * (a * a)) == e * (a * a)) by field.
  rewrite E'. nra.
Qed.

End Newton.

Lemma pow4_linear (n : nat) : inject_Z (Z.of_nat n) + 1 <= pow4 n.
Proof.
  induction n as [ | n IH ].
  - discriminate.
  - rewrite Nat2Z.inj_succ. unfold Z.succ. rewrite inject_Z_plus.
    simpl pow4. assert (0 <= inject_Z (Z.of_nat n)).
    { change 0 with (inject_Z 0). rewrite <- Zle_Qle. lia. }
    change (inject_Z 1) with 1. lra.
Qed.

Lemma pow4_unbounded (q : Q) : exists n : nat, q <= pow4 n.
Proof.
  exists (Z.to_nat (Qceiling q)).
  pose proof (Qle_ceiling q) as H1.
  pose proof (pow4_linear (Z.to_nat (Qceiling q))) as H2.
  assert (H3 : inject_Z (Qceiling q)
               <= inject_Z (Z.of_nat (Z.to_nat (Qceiling q)))).
  { rewrite <- Zle_Qle. lia. }
  lra.
Qed.

Lemma above_root_exceeds (delta_x delta_y a : Q) :
  ~ delta_x == 0 -> ~ delta_y == 0 -> 0 < a ->
  delta_x * delta_x + delta_y * delta_y <= a * a ->
  Qabs delta_x < a /\ Qabs delta_y < a.
Proof.
  intros Hx Hy Ha Hs.
  assert (0 < delta_x * delta_x) by nra.
  assert (0 < delta_y * delta_y) by nra.
  split.
  - apply Qabs_case; intro; nra.
  - apply Qabs_case; intro; nra.
Qed.

Section Refinement.

Variables delta_x delta_y err_bound abs_delta_x abs_delta_y : Q.
Hypothesis delta_x_nonzero : ~ delta_x == 0.
Hypothesis delta_y_nonzero : ~ delta_y == 0.
Hypothesis err_bound_pos : 0 < err_bound.
Hypothesis abs_delta_x_eq : abs_delta_x == Qabs delta_x.
Hypothesis abs_delta_y_eq : abs_delta_y == Qabs delta_y.

Let sqr_d : Q := NT.square delta_x + NT.square delta_y.

Lemma sqr_d_positive : 0 < sqr_d.
Proof. unfold sqr_d, NT.square. nra. Qed.

Lemma keep_refining_accepted (app_d app_err : Q) :
  app_err == sqr_d - app_d * app_d ->
  keep_refining err_bound abs_delta_x abs_delta_y app_d app_err = false ->
  accepted sqr_d err_bound delta_x delta_y app_d.
Proof.
  intros Herr K. apply keep_refining_false in K.
  destruct K as (K1 & K2 & K3). unfold accepted.
  rewrite <- Herr, <- abs_delta_x_eq, <- abs_delta_y_eq. tauto.
Qed.

Lemma refine_from_above (n : nat) :
  forall app_d app_err : Q,
    0 < app_d -> sqr_d <= app_d * app_d ->
    app_err == sqr_d - app_d * app_d ->
    app_d * app_d - sqr_d <= err_bound * pow4 n ->
    exists a e : Q,
      refine_app_d n sqr_d err_bound abs_delta_x abs_delta_y
        app_d app_err = Done (a, e)
      /\ accepted sqr_d err_bound delta_x delta_y a
      /\ e == sqr_d - a * a.
Proof.
  induction n as [ | n IH ]; intros app_d app_err Hpos Habove Herr Hn.
  - assert (K : keep_refining err_bound abs_delta_x abs_delta_y
                  app_d app_err = false).
    { apply keep_refining_false.
      destruct (above_root_exceeds delta_x delta_y app_d) as [Hx Hy];
        auto.
      rewrite abs_delta_x_eq, abs_delta_y_eq.
      repeat split; auto. rewrite Herr. simpl pow4 in Hn.
      apply Qabs_case; intro; lra. }
    simpl. rewrite K. exists app_d, app_err.
    split; [ reflexivity | split; [ | exact Herr ] ].
    apply keep_refining_accepted with app_err; assumption.
  - simpl.
    destruct (keep_refining err_bound abs_delta_x abs_delta_y
                app_d app_err) eqn:K.
    + rewrite div_Done by lra. simpl.
      pose proof sqr_d_positive as HS.
      apply (IH (newton_step sqr_d app_d)).
      * apply newton_step_pos; assumption.
      * apply newton_step_above; assumption.
      * unfold NT.square. reflexivity.
      * pose proof (newton_step_quarter sqr_d HS app_d Hpos Habove) as Hq.
        simpl pow4 in Hn.
        apply Qle_trans with ((app_d * app_d - sqr_d) / 4); [ exact Hq | ].
        apply Qle_shift_div_r; lra.
    + exists app_d, app_err.
      split; [ reflexivity | split; [ | exact Herr ] ].
      apply keep_refining_accepted with app_err; assumption.
Qed.

Lemma refine_app_d_returns (app_d0 : Q) :
  0 < app_d0 ->
  exists (fuel : nat) (a e : Q),
    refine_app_d fuel sqr_d err_bound abs_delta_x abs_delta_y
      app_d0 (sqr_d - NT.square app_d0) = Done (a, e)
    /\ accepted sqr_d err_bound delta_x delta_y a
    /\ e == sqr_d - a * a.
Proof.
  intro Hpos. pose proof sqr_d_positive as HS.
  destruct (keep_refining err_bound abs_delta_x abs_delta_y
              app_d0 (sqr_d - NT.square app_d0)) eqn:K.
  - set (a1 := newton_step sqr_d app_d0).
    destruct (pow4_unbounded ((a1 * a1 - sqr_d) / err_bound)) as [n Hn].
    destruct (refine_from_above n a1 (sqr_d - NT.square a1))
      as (a & e & Hrun & Hacc & He).
    + apply newton_step_pos; assumption.
    + apply newton_step_above; assumption.
    + reflexivity.
    + assert (E : a1 * a1 - sqr_d
                  == (a1 * a1 - sqr_d) / err_bound * err_bound)
        by (field; lra).
      rewrite E, (Qmult_comm err_bound).
      apply Qmult_le_compat_r; [ exact Hn | lra ].
    + exists (S n), a, e. split; [ | split; assumption ].
      simpl. rewrite K. rewrite div_Done by lra. exact Hrun.
  - exists O, app_d0, (sqr_d - NT.square app_d0). simpl. rewrite K.
    split; [ reflexivity | split; [ | reflexivity ] ].
    apply keep_refining_accepted with (sqr_d - NT.square app_d0);
      [ reflexivity | assumption ].
Qed.

End Refinement.

(** What a run of the loop that returns has established; no assumption on
    the start value or on the bound. *)
Lemma refine_app_d_Done (fuel : nat) :
  forall sqr_d err_bound adx ady app_d app_err a e,
    refine_app_d fuel sqr_d err_bound adx ady app_d app_err = Done (a, e) ->
    app_err = sqr_d - NT.square app_d ->
    e = sqr_d - NT.square a
    /\ Qabs e <= err_bound /\ adx < a /\ ady < a.
Proof.
  induction fuel as [ | fuel IH ];
    intros sqr_d err_bound adx ady app_d app_err a e Hrun Herr; simpl in Hrun;
    destruct (keep_refining err_bound adx ady app_d app_err) eqn:K;
    try discriminate.
  - injection Hrun as <- <-. apply keep_refining_false in K. tauto.
  - destruct (NT.div sqr_d app_d) as [ q | | ] eqn:D; try discriminate.
    simpl in Hrun. apply IH in Hrun; [ exact Hrun | reflexivity ].
  - injection Hrun as <- <-. apply keep_refining_false in K. tauto.
Qed.

Lemma abs_by_sign (d : Q) :
  (if Sign_eqb (NT.sign d) POSITIVE then d else - d) == Qabs d.
Proof.
  pose proof (sign_spec d) as H.
  destruct (NT.sign d); simpl.
  - rewrite Qabs_neg; lra.
  - rewrite H. reflexivity.
  - rewrite Qabs_pos; lra.
Qed.

Lemma bind_Done_inv {A B : Type} (m : outcome A) (k : A -> outcome B) (b : B) :
  bind m k = Done b -> exists a, m = Done a /\ k a = Done b.
Proof.
  destruct m as [ a | f | ]; simpl; intro H; try discriminate.
  exists a. split; [ reflexivity | exact H ].
Qed.

Ltac bind_inv H :=
  match type of H with
  | bind ?m ?k = Done ?b =>
      let a := fresh "v" in
      let Hm := fresh "Hm" in
      apply bind_Done_inv in H; destruct H as (a & Hm & H)
  end.

Lemma sign_ZERO_iff (a : Q) : Sign_eqb (NT.sign a) ZERO = true <-> a == 0.
Proof.
  pose proof (sign_spec a) as H.
  destruct (NT.sign a); simpl; split; intro E; try discriminate;
    try reflexivity; try assumption; lra.
Qed.

Lemma sign_POSITIVE_iff (a : Q) : Sign_eqb (NT.sign a) POSITIVE = true <-> 0 < a.
Proof.
  pose proof (sign_spec a) as H.
  destruct (NT.sign a); simpl; split; intro E; try discriminate;
    try reflexivity; try assumption; lra.
Qed.

Lemma bool_false_iff (b : bool) (P : Prop) :
  (b = true <-> P) -> (b = false <-> ~ P).
Proof. destruct b; intuition congruence. Qed.

(** The objects of the examples are the ones the constructor builds. *)
Lemma construct_examples :
  construct Examples.eps_0345 = Done Examples.base_0345
  /\ construct Examples.eps_64th = Done Examples.base_64th.
Proof. split; vm_compute; reflexivity. Qed.

(** ** The offset of one edge *)

Section Edge.

Context {K : Kernel}.
Variable self : Approx_offset_base_2.
Variable fuel : nat.
Variables curr next : Point_2.
Variable r : Q.

Let delta_x : Q := pt_x next - pt_x curr.
Let delta_y : Q := pt_y next - pt_y curr.

Lemma offset_edge_vertical :
  delta_x == 0 -> ~ delta_y == 0 ->
  offset_edge self fuel curr next r
  = Done (vertical_edge curr next r (NT.sign delta_y)).
Proof.
  intros Hx Hy. unfold offset_edge. fold delta_x delta_y.
  apply sign_ZERO_iff in Hx. rewrite Hx.
  apply (bool_false_iff _ _ (sign_ZERO_iff delta_y)) in Hy. rewrite Hy.
  reflexivity.
Qed.

Lemma offset_edge_horizontal :
  ~ delta_x == 0 -> delta_y == 0 ->
  offset_edge self fuel curr next r
  = Done (horizontal_edge curr next r (NT.sign delta_x)).
Proof.
  intros Hx Hy. unfold offset_edge. fold delta_x delta_y.
  apply sign_ZERO_iff in Hy. rewrite Hy.
  apply (bool_false_iff _ _ (sign_ZERO_iff delta_x)) in Hx. rewrite Hx.
  reflexivity.
Qed.

Lemma offset_edge_general :
  ~ delta_x == 0 -> ~ delta_y == 0 ->
  offset_edge self fuel curr next r
  = general_edge self fuel curr next r delta_x delta_y
      (NT.square delta_x + NT.square delta_y)
      (NT.sign delta_x) (NT.sign delta_y).
Proof.
  intros Hx Hy. unfold offset_edge. fold delta_x delta_y.
  apply (bool_false_iff _ _ (sign_ZERO_iff delta_x)) in Hx. rewrite Hx.
  apply (bool_false_iff _ _ (sign_ZERO_iff delta_y)) in Hy. rewrite Hy.
  reflexivity.
Qed.

End Edge.

(** C6: a vertical edge ([delta_x = 0]) yields one offset segment, both end
    points shifted by [(+r, 0)] when [delta_y > 0] and by [(-r, 0)]
    otherwise, with direction flag [delta_y > 0]; a horizontal edge
    ([delta_y = 0]) yields one segment, both end points shifted by [(0, -r)]
    when [delta_x > 0] and by [(0, +r)] otherwise, with direction flag
    [delta_x > 0].  The shifted points are exact: no approximation enters.
    The end points of an edge are distinct. *)
Theorem axis_parallel_edge_offset {K : Kernel} (self : Approx_offset_base_2)
  (fuel : nat) (x1 y1 x2 y2 r : Q) :
  ~ (x2 - x1 == 0 /\ y2 - y1 == 0) ->
  let result op1 op2 dir :=
    Done (mk_edge_offset op1 op2 (One_segment (X_segment op1 op2) dir)) in
  let run := offset_edge self fuel (mk_Point_2 x1 y1) (mk_Point_2 x2 y2) r in
  (x2 - x1 == 0 -> 0 < y2 - y1 ->
   run = result (mk_Point_2 (x1 + r) y1) (mk_Point_2 (x2 + r) y2) true)
  /\ (x2 - x1 == 0 -> ~ 0 < y2 - y1 ->
      run = result (mk_Point_2 (x1 - r) y1) (mk_Point_2 (x2 - r) y2) false)
  /\ (y2 - y1 == 0 -> 0 < x2 - x1 ->
      run = result (mk_Point_2 x1 (y1 - r)) (mk_Point_2 x2 (y2 - r)) true)
  /\ (y2 - y1 == 0 -> ~ 0 < x2 - x1 ->
      run = result (mk_Point_2 x1 (y1 + r)) (mk_Point_2 x2 (y2 + r)) false).
Proof.
  intros Hedge result run. unfold run, result.
  repeat split; intros H0 Hs.
  - rewrite offset_edge_vertical; simpl; try lra.
    unfold vertical_edge. simpl.
    apply sign_POSITIVE_iff in Hs. rewrite Hs. reflexivity.
  - rewrite offset_edge_vertical; simpl; try tauto.
    unfold vertical_edge. simpl.
    apply (bool_false_iff _ _ (sign_POSITIVE_iff _)) in Hs. rewrite Hs.
    reflexivity.
  - rewrite offset_edge_horizontal; simpl; try lra.
    unfold horizontal_edge. simpl.
    apply sign_POSITIVE_iff in Hs. rewrite Hs. reflexivity.
  - rewrite offset_edge_horizontal; simpl; try tauto.
    unfold horizontal_edge. simpl.
    apply (bool_false_iff _ _ (sign_POSITIVE_iff _)) in Hs. rewrite Hs.
    reflexivity.
Qed.

Lemma axis_parallel_edge_offset_witness :
  offset_edge (K := Cartesian.kernel)
    (mk_Approx_offset_base_2 (Double.of_int 1) 1) 0
    (mk_Point_2 1 0) (mk_Point_2 1 1) (1 # 2)
  = Done (mk_edge_offset
            (mk_Point_2 (1 + (1 # 2)) 0) (mk_Point_2 (1 + (1 # 2)) 1)
            (One_segment
               (X_segment (mk_Point_2 (1 + (1 # 2)) 0)
                          (mk_Point_2 (1 + (1 # 2)) 1)) true)).
Proof.
  assert (Hedge : ~ (1 - 1 == 0 /\ 1 - 0 == 0)).
  { intros [_ H]. vm_compute in H. discriminate H. }
  apply (proj1 (axis_parallel_edge_offset (K := Cartesian.kernel)
                  (mk_Approx_offset_base_2 (Double.of_int 1) 1) 0
                  1 0 1 1 (1 # 2) Hedge)).
  - reflexivity.
  - reflexivity.
Defined.

(** C10: when the two end points of an edge are distinct, [delta_x] and
    [delta_y] are not both zero; the assertion of the vertical branch holds,
    and exactly one of the three branches (vertical, horizontal, general) is
    taken: the sign tests of the three cases exclude one another and one of
    them holds. *)
Theorem edge_cases_exhaustive_exclusive {K : Kernel}
  (self : Approx_offset_base_2) (fuel : nat) (curr next : Point_2) (r : Q) :
  ~ (pt_x curr == pt_x next /\ pt_y curr == pt_y next) ->
  let delta_x := pt_x next - pt_x curr in
  let delta_y := pt_y next - pt_y curr in
  let sx := NT.sign delta_x in
  let sy := NT.sign delta_y in
  ~ (delta_x == 0 /\ delta_y == 0)
  /\ (Sign_eqb sx ZERO = true ->
      CGAL_assertion (negb (Sign_eqb sy ZERO)) = Done tt)
  /\ ((Sign_eqb sx ZERO = true /\ Sign_eqb sy ZERO = false
       /\ offset_edge self fuel curr next r
          = Done (vertical_edge curr next r sy))
      \/ (Sign_eqb sx ZERO = false /\ Sign_eqb sy ZERO = true
          /\ offset_edge self fuel curr next r
             = Done (horizontal_edge curr next r sx))
      \/ (Sign_eqb sx ZERO = false /\ Sign_eqb sy ZERO = false
          /\ offset_edge self fuel curr next r
             = general_edge self fuel curr next r delta_x delta_y
                 (NT.square delta_x + NT.square delta_y) sx sy)).
Proof.
  intros Hdistinct delta_x delta_y sx sy.
  assert (Hnz : ~ (delta_x == 0 /\ delta_y == 0)).
  { unfold delta_x, delta_y. intros [Hx Hy]. apply Hdistinct. split; lra. }
  split; [ exact Hnz | ].
  pose proof (sign_ZERO_iff delta_x) as Zx.
  pose proof (sign_ZERO_iff delta_y) as Zy.
  fold sx in Zx. fold sy in Zy.
  split.
  - intro Hx. apply Zx in Hx.
    destruct (Sign_eqb sy ZERO) eqn:Ey; [ | reflexivity ].
    exfalso. apply Hnz. split; [ exact Hx | apply Zy; reflexivity ].
  - destruct (Sign_eqb sx ZERO) eqn:Ex, (Sign_eqb sy ZERO) eqn:Ey.
    + exfalso. apply Hnz. split; [ apply Zx | apply Zy ]; reflexivity.
    + left. repeat split.
      apply offset_edge_vertical.
      * apply Zx; reflexivity.
      * intro E. apply Zy in E. discriminate.
    + right; left. repeat split.
      apply offset_edge_horizontal.
      * intro E. apply Zx in E. discriminate.
      * apply Zy; reflexivity.
    + right; right. repeat split.
      apply offset_edge_general.
      * intro E. apply Zx in E. discriminate.
      * intro E. apply Zy in E. discriminate.
Qed.

Lemma edge_cases_exhaustive_exclusive_witness :
  offset_edge (K := Cartesian.kernel)
    (mk_Approx_offset_base_2 (Double.of_int 1) 1) 0
    (mk_Point_2 0 0) (mk_Point_2 1 0) (1 # 2)
  <> Abort Assertion_violation.
Proof.
  destruct (edge_cases_exhaustive_exclusive (K := Cartesian.kernel)
              (mk_Approx_offset_base_2 (Double.of_int 1) 1) 0
              (mk_Point_2 0 0) (mk_Point_2 1 0) (1 # 2))
    as (_ & _ & [ (_ & _ & E) | [ (_ & _ & E) | (_ & _ & E) ] ]).
  - intros [H _]. vm_compute in H. discriminate H.
  - rewrite E. discriminate.
  - rewrite E. discriminate.
  - rewrite E. vm_compute. discriminate.
Defined.

(** ** The general edge *)

Lemma rotate_offset_on_circle (x y r t : Q) (p : Point_2) :
  rotate_offset x y r t = Done p ->
  squared_distance p (mk_Point_2 x y) == r * r.
Proof.
  unfold rotate_offset. intro H.
  bind_inv H. bind_inv H. injection H as <-.
  apply div_Done_inv in Hm. destruct Hm as [Hnz ->].
  apply div_Done_inv in Hm0. destruct Hm0 as [_ ->].
  unfold squared_distance, NT.square in *. simpl.
  field. exact Hnz.
Qed.

Lemma general_edge_inv {K : Kernel} (self : Approx_offset_base_2)
  (fuel : nat) (curr next : Point_2) (r delta_x delta_y sqr_d : Q)
  (sign_delta_x sign_delta_y : Sign) (e : edge_offset) :
  general_edge self fuel curr next r delta_x delta_y sqr_d
    sign_delta_x sign_delta_y = Done e ->
  exists err_bound app_d app_err,
    (n_segments (segments e) = 1%Z
     /\ one_segment_run self fuel curr next r delta_x delta_y sqr_d
          sign_delta_x sign_delta_y e err_bound app_d app_err)
    \/ (n_segments (segments e) = 2%Z
        /\ exists used_d,
            two_segment_run self fuel curr next r delta_x delta_y sqr_d
              sign_delta_x sign_delta_y e err_bound app_d app_err used_d).
Proof.
  unfold general_edge. intro H.
  bind_inv H. destruct v as [err_bound app_d0]. simpl in H.
  bind_inv H. destruct v as [app_d app_err]. simpl in H.
  exists err_bound, app_d, app_err.
  destruct (Sign_eqb (NT.sign app_err) ZERO) eqn:Z.
  - left. bind_inv H. bind_inv H. injection H as <-.
    apply div_Done_inv in Hm1. destruct Hm1 as [Hnz ->].
    apply div_Done_inv in Hm2. destruct Hm2 as [_ ->].
    split; [ reflexivity | ].
    constructor; try assumption.
    + exists app_d0. split; assumption.
    + reflexivity.
  - right. bind_inv H. rename v into used_d.
    bind_inv H. bind_inv H. bind_inv H. bind_inv H. bind_inv H.
    injection H as <-.
    split; [ reflexivity | ].
    exists used_d. constructor; try assumption.
    + exists app_d0. split; assumption.
    + simpl. eauto 10.
Qed.

(** C9: in every branch of the case analysis (vertical, horizontal, exact
    length, two segments) the offset points [op1] and [op2] lie at squared
    distance [r^2] from the edge's source and target vertex. *)
Theorem offset_points_on_circle {K : Kernel} (self : Approx_offset_base_2)
  (fuel : nat) (curr next : Point_2) (r : Q) (e : edge_offset) :
  offset_edge self fuel curr next r = Done e ->
  squared_distance (op1 e) curr == r * r
  /\ squared_distance (op2 e) next == r * r.
Proof.
  intro H. unfold offset_edge in H.
  set (delta_x := pt_x next - pt_x curr) in *.
  set (delta_y := pt_y next - pt_y curr) in *.
  destruct (Sign_eqb (NT.sign delta_x) ZERO) eqn:Zx.
  - bind_inv H. injection H as <-.
    unfold vertical_edge, squared_distance, NT.square.
    destruct (Sign_eqb (NT.sign delta_y) POSITIVE); simpl; split; ring.
  - destruct (Sign_eqb (NT.sign delta_y) ZERO) eqn:Zy.
    + injection H as <-.
      unfold horizontal_edge, squared_distance, NT.square.
      destruct (Sign_eqb (NT.sign delta_x) POSITIVE); simpl; split; ring.
    + apply general_edge_inv in H.
      destruct H as (err_bound & app_d & app_err & [ [_ R] | [_ [used_d R]] ]).
      * destruct R as [(app_d0 & _ & Hrun) Hz Hnz ->].
        apply refine_app_d_Done in Hrun; [ | reflexivity ].
        destruct Hrun as (Herr & _).
        apply sign_ZERO_iff in Hz. rewrite Herr in Hz.
        unfold squared_distance, NT.square in *. simpl.
        assert (E : app_d * app_d == delta_x * delta_x + delta_y * delta_y)
          by lra.
        assert (F : forall x : Q,
                   (x + r * delta_y / app_d - x)
                   * (x + r * delta_y / app_d - x)
                   == r * r * (delta_y * delta_y) / (app_d * app_d))
          by (intro; field; assumption).
        assert (G : forall y : Q,
                   (y + r * - delta_x / app_d - y)
                   * (y + r * - delta_x / app_d - y)
                   == r * r * (delta_x * delta_x) / (app_d * app_d))
          by (intro; field; assumption).
        rewrite !F, !G, E.
        assert (Hs : ~ delta_x * delta_x + delta_y * delta_y == 0).
        { rewrite <- E. intro Hc. apply Hnz. nra. }
        split; field; exact Hs.
      * destruct R as [_ _ _ (t1 & t2 & _ & _ & H1 & H2)].
        apply rotate_offset_on_circle in H1, H2.
        destruct curr, next. simpl in *. split; assumption.
Qed.

Lemma offset_points_on_circle_witness :
  exists e : edge_offset,
    offset_edge (K := Cartesian.kernel) Examples.base_0345 10
      (mk_Point_2 0 0) (mk_Point_2 1 1) (1 # 2) = Done e
    /\ n_segments (segments e) = 2%Z
    /\ squared_distance (op1 e) (mk_Point_2 0 0) == (1 # 2) * (1 # 2)
    /\ squared_distance (op2 e) (mk_Point_2 1 1) == (1 # 2) * (1 # 2).
Proof.
  eexists. split; [ vm_compute; reflexivity | ].
  split; [ reflexivity | ].
  apply (offset_points_on_circle (K := Cartesian.kernel)
           Examples.base_0345 10 (mk_Point_2 0 0) (mk_Point_2 1 1) (1 # 2)).
  vm_compute. reflexivity.
Defined.

Lemma refine_app_d_more_fuel (fuel : nat) :
  forall sqr_d err_bound adx ady app_d app_err res (fuel' : nat),
    refine_app_d fuel sqr_d err_bound adx ady app_d app_err = Done res ->
    (fuel <= fuel')%nat ->
    refine_app_d fuel' sqr_d err_bound adx ady app_d app_err = Done res.
Proof.
  induction fuel as [ | fuel IH ];
    intros sqr_d err_bound adx ady app_d app_err res fuel' Hrun Hle;
    simpl in Hrun; destruct fuel' as [ | fuel' ]; simpl;
    destruct (keep_refining err_bound adx ady app_d app_err);
    try discriminate; try exact Hrun; try lia.
  destruct (NT.div sqr_d app_d) as [ q | | ]; try discriminate.
  simpl in *. apply IH; [ exact Hrun | lia ].
Qed.

(** C7: for a general edge ([delta_x] and [delta_y] not zero), a positive
    first approximation and a positive error bound, the refinement loop
    [app_d <- (app_d + sqr_d / app_d) / 2] ends: some number of iterations
    suffices, the loop returns, and the value it returns satisfies the
    acceptance predicate. *)
Theorem newton_refinement_terminates (delta_x delta_y err_bound app_d0 : Q) :
  ~ delta_x == 0 -> ~ delta_y == 0 -> 0 < app_d0 -> 0 < err_bound ->
  let sqr_d := NT.square delta_x + NT.square delta_y in
  let abs_delta_x :=
    if Sign_eqb (NT.sign delta_x) POSITIVE then delta_x else - delta_x in
  let abs_delta_y :=
    if Sign_eqb (NT.sign delta_y) POSITIVE then delta_y else - delta_y in
  exists (fuel : nat) (app_d app_err : Q),
    (forall fuel' : nat, (fuel <= fuel')%nat ->
       refine_app_d fuel' sqr_d err_bound abs_delta_x abs_delta_y
         app_d0 (sqr_d - NT.square app_d0) = Done (app_d, app_err))
    /\ accepted sqr_d err_bound delta_x delta_y app_d.
Proof.
  intros Hx Hy Hpos Hbound sqr_d abs_delta_x abs_delta_y.
  destruct (refine_app_d_returns delta_x delta_y err_bound
              abs_delta_x abs_delta_y Hx Hy Hbound
              (abs_by_sign delta_x) (abs_by_sign delta_y) app_d0 Hpos)
    as (fuel & a & e & Hrun & Hacc & _).
  exists fuel, a, e. split; [ | exact Hacc ].
  intros fuel' Hle.
  apply refine_app_d_more_fuel with fuel; assumption.
Qed.

Lemma newton_refinement_terminates_witness :
  exists (fuel : nat) (app_d app_err : Q),
    (forall fuel' : nat, (fuel <= fuel')%nat ->
       refine_app_d fuel' (NT.square 1 + NT.square (-2)) (1 # 100)
         (if Sign_eqb (NT.sign 1) POSITIVE then 1 else - (1))
         (if Sign_eqb (NT.sign (-2)) POSITIVE then (-2) else - (-2))
         2 (NT.square 1 + NT.square (-2) - NT.square 2)
       = Done (app_d, app_err))
    /\ accepted (NT.square 1 + NT.square (-2)) (1 # 100) 1 (-2) app_d.
Proof.
  apply (newton_refinement_terminates 1 (-2) (1 # 100) 2).
  - intro H. vm_compute in H. discriminate H.
  - intro H. vm_compute in H. discriminate H.
  - reflexivity.
  - reflexivity.
Defined.

Lemma two_segments_general {K : Kernel} (self : Approx_offset_base_2)
  (fuel : nat) (curr next : Point_2) (r : Q) (e : edge_offset) :
  offset_edge self fuel curr next r = Done e ->
  n_segments (segments e) = 2%Z ->
  let delta_x := pt_x next - pt_x curr in
  let delta_y := pt_y next - pt_y curr in
  ~ delta_x == 0 /\ ~ delta_y == 0
  /\ general_edge self fuel curr next r delta_x delta_y
       (NT.square delta_x + NT.square delta_y)
       (NT.sign delta_x) (NT.sign delta_y) = Done e.
Proof.
  intros H Hn delta_x delta_y. unfold offset_edge in H.
  fold delta_x delta_y in H.
  destruct (Sign_eqb (NT.sign delta_x) ZERO) eqn:Zx.
  - bind_inv H. injection H as <-. unfold vertical_edge in Hn.
    destruct (Sign_eqb (NT.sign delta_y) POSITIVE); discriminate Hn.
  - destruct (Sign_eqb (NT.sign delta_y) ZERO) eqn:Zy.
    + injection H as <-. unfold horizontal_edge in Hn.
      destruct (Sign_eqb (NT.sign delta_x) POSITIVE); discriminate Hn.
    + repeat split; try assumption.
      * intro E. apply sign_ZERO_iff in E. congruence.
      * intro E. apply sign_ZERO_iff in E. congruence.
Qed.

Lemma two_segment_run_accepted {K : Kernel} (self : Approx_offset_base_2)
  (fuel : nat) (curr next : Point_2) (r delta_x delta_y : Q)
  (e : edge_offset) (err_bound app_d app_err used_d : Q) :
  let sqr_d := NT.square delta_x + NT.square delta_y in
  two_segment_run self fuel curr next r delta_x delta_y sqr_d
    (NT.sign delta_x) (NT.sign delta_y) e err_bound app_d app_err used_d ->
  app_err = sqr_d - NT.square app_d
  /\ accepted sqr_d err_bound delta_x delta_y app_d
  /\ 0 < app_d /\ ~ app_err == 0.
Proof.
  intros sqr_d [(app_d0 & _ & Hrun) Hnz _ _].
  apply refine_app_d_Done in Hrun; [ | reflexivity ].
  destruct Hrun as (Herr & Hb & Hx & Hy).
  rewrite abs_by_sign in Hx, Hy.
  split; [ exact Herr | ]. split; [ | split ].
  - unfold accepted. rewrite Herr in Hb. unfold NT.square in Hb. tauto.
  - pose proof (Qabs_nonneg delta_x). lra.
  - intro E. apply sign_ZERO_iff in E. congruence.
Qed.

Lemma bias_app_d_value (delta_x app_err sqr_d app_d : Q) :
  ~ app_d == 0 -> ~ delta_x == 0 -> ~ app_err == 0 ->
  let wrong_side := (delta_x < 0 /\ app_err < 0) \/ (0 < delta_x /\ 0 < app_err) in
  exists used_d,
    bias_app_d (NT.sign delta_x) (NT.sign app_err) sqr_d app_d = Done used_d
    /\ (wrong_side -> used_d = sqr_d / app_d)
    /\ (~ wrong_side -> used_d = app_d).
Proof.
  intros Ha Hx He wrong_side. unfold bias_app_d, wrong_side.
  pose proof (sign_spec delta_x) as Sx.
  pose proof (sign_spec app_err) as Se.
  destruct (NT.sign delta_x), (NT.sign app_err); simpl;
    try contradiction;
    try (rewrite div_Done by assumption);
    eexists; (split; [ reflexivity | ]); split; intro W;
    try reflexivity; exfalso; try (apply W); lra.
Qed.

(** C5: in the two-segment case the length used after the bias correction
    is a lower bound of the root when [delta_x < 0] ([used_d^2 <= sqr_d])
    and an upper bound when [delta_x > 0] ([used_d^2 >= sqr_d]); it is
    [sqr_d / app_d] exactly when the accepted [app_d] lies on the wrong
    side, and [app_d] itself otherwise. *)
Theorem bias_correction_bounds {K : Kernel} (self : Approx_offset_base_2)
  (fuel : nat) (curr next : Point_2) (r : Q) (e : edge_offset) :
  offset_edge self fuel curr next r = Done e ->
  n_segments (segments e) = 2%Z ->
  let delta_x := pt_x next - pt_x curr in
  let delta_y := pt_y next - pt_y curr in
  let sqr_d := NT.square delta_x + NT.square delta_y in
  exists err_bound app_d app_err used_d,
    two_segment_run self fuel curr next r delta_x delta_y sqr_d
      (NT.sign delta_x) (NT.sign delta_y) e err_bound app_d app_err used_d
    /\ (delta_x < 0 -> used_d * used_d <= sqr_d)
    /\ (0 < delta_x -> sqr_d <= used_d * used_d)
    /\ let wrong_side :=
         (delta_x < 0 /\ sqr_d < app_d * app_d)
         \/ (0 < delta_x /\ app_d * app_d < sqr_d) in
       (wrong_side -> used_d = sqr_d / app_d)
       /\ (~ wrong_side -> used_d = app_d).
Proof.
  intros H Hn delta_x delta_y sqr_d.
  destruct (two_segments_general self fuel curr next r e H Hn)
    as (Hx & Hy & Hg).
  fold delta_x delta_y sqr_d in Hx, Hy, Hg.
  apply general_edge_inv in Hg.
  destruct Hg as (err_bound & app_d & app_err & [ [Hc _] | [_ [used_d R]] ]);
    [ congruence | ].
  exists err_bound, app_d, app_err, used_d. split; [ exact R | ].
  destruct (two_segment_run_accepted self fuel curr next r delta_x delta_y
              e err_bound app_d app_err used_d R)
    as (Herr & Hacc & Hpos & Hnz).
  fold sqr_d in Herr, Hacc.
  destruct (bias_app_d_value delta_x app_err sqr_d app_d)
    as (u & Hu & Hw & Hnw); try assumption; try lra.
  rewrite (run_bias _ _ _ _ _ _ _ _ _ _ _ _ _ _ _ R) in Hu.
  injection Hu as <-.
  assert (HS : 0 < sqr_d) by (unfold sqr_d, NT.square; nra).
  assert (Herr' : app_err == sqr_d - app_d * app_d)
    by (rewrite Herr; reflexivity).
  assert (Hq : sqr_d / app_d * app_d == sqr_d) by (field; lra).
  assert (Hside : forall P : Prop,
             ((delta_x < 0 /\ app_err < 0) \/ (0 < delta_x /\ 0 < app_err)
              -> P) ->
             ((delta_x < 0 /\ sqr_d < app_d * app_d)
              \/ (0 < delta_x /\ app_d * app_d < sqr_d) -> P)).
  { intros P HP [ [A B] | [A B] ]; apply HP; [ left | right ]; lra. }
  assert (Hside' : forall P : Prop,
             (~ ((delta_x < 0 /\ app_err < 0) \/ (0 < delta_x /\ 0 < app_err))
              -> P) ->
             (~ ((delta_x < 0 /\ sqr_d < app_d * app_d)
                 \/ (0 < delta_x /\ app_d * app_d < sqr_d)) -> P)).
  { intros P HP Hn'. apply HP. intros [ [A B] | [A B] ]; apply Hn';
      [ left | right ]; lra. }
  repeat split.
  - intro Hneg.
    destruct (Qlt_le_dec app_err 0) as [He | He].
    + rewrite Hw by (left; split; assumption).
      revert Hq. generalize (sqr_d / app_d). intros q Hq. nra.
    + rewrite Hnw; [ lra | ]. intros [ [_ B] | [A _] ]; lra.
  - intro Hposx.
    destruct (Qlt_le_dec 0 app_err) as [He | He].
    + rewrite Hw by (right; split; assumption).
      revert Hq. generalize (sqr_d / app_d). intros q Hq. nra.
    + rewrite Hnw; [ lra | ]. intros [ [A _] | [_ B] ]; lra.
  - apply Hside. exact Hw.
  - apply Hside'. exact Hnw.
Qed.

Lemma bias_correction_bounds_witness :
  exists e : edge_offset,
    offset_edge (K := Cartesian.kernel) Examples.base_0345 10
      (mk_Point_2 0 0) (mk_Point_2 1 1) 1 = Done e
    /\ exists err_bound app_d app_err used_d,
        two_segment_run (K := Cartesian.kernel) Examples.base_0345 10
          (mk_Point_2 0 0) (mk_Point_2 1 1) 1 (1 - 0) (1 - 0)
          (NT.square (1 - 0) + NT.square (1 - 0))
          (NT.sign (1 - 0)) (NT.sign (1 - 0)) e
          err_bound app_d app_err used_d
        /\ (1 - 0 < 0 -> used_d * used_d
                         <= NT.square (1 - 0) + NT.square (1 - 0))
        /\ (0 < 1 - 0 -> NT.square (1 - 0) + NT.square (1 - 0)
                         <= used_d * used_d)
        /\ ((1 - 0 < 0 /\ NT.square (1 - 0) + NT.square (1 - 0)
                          < app_d * app_d
             \/ 0 < 1 - 0 /\ app_d * app_d
                             < NT.square (1 - 0) + NT.square (1 - 0) ->
             used_d = (NT.square (1 - 0) + NT.square (1 - 0)) / app_d)
            /\ (~ (1 - 0 < 0 /\ NT.square (1 - 0) + NT.square (1 - 0)
                               < app_d * app_d
                   \/ 0 < 1 - 0 /\ app_d * app_d
                                   < NT.square (1 - 0) + NT.square (1 - 0)) ->
                used_d = app_d)).
Proof.
  eexists. split.
  - vm_compute. reflexivity.
  - apply (bias_correction_bounds (K := Cartesian.kernel)
             Examples.base_0345 10 (mk_Point_2 0 0) (mk_Point_2 1 1) 1).
    + vm_compute. reflexivity.
    + reflexivity.
Defined.

(** C1, as the code has it: for every general edge for which two offset
    segments are produced, the length [app_d] the refinement loop returned
    satisfies the acceptance predicate ([|sqr_d - app_d^2| <= err_bound],
    [app_d > |delta_x|], [app_d > |delta_y|]).  The length used to build
    the offset points is [app_d] or [sqr_d / app_d]; it is positive, keeps
    the error bound when [delta_x < 0] and keeps exceeding [|delta_x|] and
    [|delta_y|] when [delta_x > 0]. *)
Theorem accepted_length_before_bias {K : Kernel} (self : Approx_offset_base_2)
  (fuel : nat) (curr next : Point_2) (r : Q) (e : edge_offset) :
  offset_edge self fuel curr next r = Done e ->
  n_segments (segments e) = 2%Z ->
  let delta_x := pt_x next - pt_x curr in
  let delta_y := pt_y next - pt_y curr in
  let sqr_d := NT.square delta_x + NT.square delta_y in
  exists err_bound app_d app_err used_d,
    two_segment_run self fuel curr next r delta_x delta_y sqr_d
      (NT.sign delta_x) (NT.sign delta_y) e err_bound app_d app_err used_d
    /\ accepted sqr_d err_bound delta_x delta_y app_d
    /\ (used_d = app_d \/ used_d = sqr_d / app_d)
    /\ 0 < used_d
    /\ (delta_x < 0 -> Qabs (sqr_d - used_d * used_d) <= err_bound)
    /\ (0 < delta_x -> Qabs delta_x < used_d /\ Qabs delta_y < used_d).
Proof.
  intros H Hn delta_x delta_y sqr_d.
  destruct (two_segments_general self fuel curr next r e H Hn)
    as (Hx & Hy & Hg).
  fold delta_x delta_y sqr_d in Hx, Hy, Hg.
  apply general_edge_inv in Hg.
  destruct Hg as (err_bound & app_d & app_err & [ [Hc _] | [_ [used_d R]] ]);
    [ congruence | ].
  exists err_bound, app_d, app_err, used_d. split; [ exact R | ].
  destruct (two_segment_run_accepted self fuel curr next r delta_x delta_y
              e err_bound app_d app_err used_d R)
    as (Herr & Hacc & Hpos & Hnz).
  fold sqr_d in Herr, Hacc.
  split; [ exact Hacc | ].
  destruct (bias_app_d_value delta_x app_err sqr_d app_d)
    as (u & Hu & Hw & Hnw); try assumption; try lra.
  rewrite (run_bias _ _ _ _ _ _ _ _ _ _ _ _ _ _ _ R) in Hu.
  injection Hu as <-.
  assert (HS : 0 < sqr_d) by (unfold sqr_d, NT.square; nra).
  assert (Herr' : app_err == sqr_d - app_d * app_d)
    by (rewrite Herr; reflexivity).
  assert (Hq : sqr_d / app_d * app_d == sqr_d) by (field; lra).
  assert (Hqpos : 0 < sqr_d / app_d) by (apply Qlt_shift_div_l; lra).
  destruct Hacc as (Hb & Hax & Hay). rewrite <- Herr' in Hb.
  set (W := (delta_x < 0 /\ app_err < 0) \/ (0 < delta_x /\ 0 < app_err))
    in *.
  assert (Hdec : W \/ ~ W).
  { unfold W. destruct (Qlt_le_dec delta_x 0), (Qlt_le_dec app_err 0),
      (Qlt_le_dec 0 delta_x), (Qlt_le_dec 0 app_err);
      try (left; left; split; assumption);
      try (left; right; split; assumption);
      right; intros [ [A B] | [A B] ]; lra. }
  destruct Hdec as [Hwrong | Hright].
  - rewrite (Hw Hwrong) in *. clear Hw Hnw.
    split; [ right; reflexivity | ]. split; [ exact Hqpos | ].
    revert Hq Hqpos. generalize (sqr_d / app_d). intros q Hq Hqpos.
    split.
    + intro Hneg. destruct Hwrong as [ [_ He] | [Hc _] ]; [ | lra ].
      rewrite Qabs_neg in Hb by lra.
      rewrite Qabs_pos; nra.
    + intro Hposx. destruct Hwrong as [ [Hc _] | [_ He] ]; [ lra | ].
      assert (app_d < q) by nra. lra.
  - rewrite (Hnw Hright) in *. clear Hw Hnw.
    split; [ left; reflexivity | ]. split; [ exact Hpos | ].
    split.
    + intros _. rewrite <- Herr'. exact Hb.
    + intros _. split; assumption.
Qed.

Lemma accepted_length_before_bias_witness :
  exists e : edge_offset,
    offset_edge (K := Cartesian.kernel) Examples.base_0345 10
      (mk_Point_2 0 0) (mk_Point_2 1 1) 1 = Done e
    /\ exists err_bound app_d app_err used_d,
        two_segment_run (K := Cartesian.kernel) Examples.base_0345 10
          (mk_Point_2 0 0) (mk_Point_2 1 1) 1 (1 - 0) (1 - 0)
          (NT.square (1 - 0) + NT.square (1 - 0))
          (NT.sign (1 - 0)) (NT.sign (1 - 0)) e
          err_bound app_d app_err used_d
        /\ accepted (NT.square (1 - 0) + NT.square (1 - 0)) err_bound
             (1 - 0) (1 - 0) app_d
        /\ (used_d = app_d
            \/ used_d = (NT.square (1 - 0) + NT.square (1 - 0)) / app_d)
        /\ 0 < used_d
        /\ (1 - 0 < 0 ->
            Qabs (NT.square (1 - 0) + NT.square (1 - 0) - used_d * used_d)
            <= err_bound)
        /\ (0 < 1 - 0 -> Qabs (1 - 0) < used_d /\ Qabs (1 - 0) < used_d).
Proof.
  eexists. split.
  - vm_compute. reflexivity.
  - apply (accepted_length_before_bias (K := Cartesian.kernel)
             Examples.base_0345 10 (mk_Point_2 0 0) (mk_Point_2 1 1) 1).
    + vm_compute. reflexivity.
    + reflexivity.
Defined.

(** C1 as stated fails: for the edge from (0,0) to (1,1) with
    [eps = 0.0345] the loop accepts [7/5] (error [1/25], within the bound
    of about 0.04042); [delta_x > 0] and [7/5] lies below the root, so the
    length used is [2 / (7/5) = 10/7], whose error [2/49] exceeds the
    bound. *)
Lemma used_length_not_accepted :
  exists e : edge_offset,
    offset_edge (K := Cartesian.kernel) Examples.base_0345 10
      (mk_Point_2 0 0) (mk_Point_2 1 1) 1 = Done e
    /\ n_segments (segments e) = 2%Z
    /\ two_segment_run (K := Cartesian.kernel) Examples.base_0345 10
         (mk_Point_2 0 0) (mk_Point_2 1 1) 1 (1 - 0) (1 - 0)
         (NT.square (1 - 0) + NT.square (1 - 0))
         (NT.sign (1 - 0)) (NT.sign (1 - 0)) e
         (5825029861531207 # 144115188075855872)
         (7 # 5)
         (NT.square (1 - 0) + NT.square (1 - 0) - NT.square (7 # 5))
         ((NT.square (1 - 0) + NT.square (1 - 0)) / (7 # 5))
    /\ ~ accepted (NT.square (1 - 0) + NT.square (1 - 0))
           (5825029861531207 # 144115188075855872) (1 - 0) (1 - 0)
           ((NT.square (1 - 0) + NT.square (1 - 0)) / (7 # 5)).
Proof.
  eexists. split; [ vm_compute; reflexivity | ].
  split; [ reflexivity | ]. split.
  - constructor.
    + exists (7 # 5). split; vm_compute; reflexivity.
    + reflexivity.
    + vm_compute. reflexivity.
    + do 2 eexists. repeat split; vm_compute; reflexivity.
  - intros (Hb & _). vm_compute in Hb. apply Hb. reflexivity.
Qed.

(** C4, as the code has it: a general edge yields exactly one offset
    segment when the length returned by the refinement loop is exact
    ([app_d^2 = sqr_d], so that the edge length is the rational [app_d]):
    both end points are then translated by
    [(r * delta_y / app_d, - r * delta_x / app_d)] and the direction flag is
    [delta_x > 0].  When the returned length is not exact, two segments are
    produced, whether or not the edge length is rational. *)
Theorem exact_length_one_segment {K : Kernel} (self : Approx_offset_base_2)
  (fuel : nat) (curr next : Point_2) (r : Q) (e : edge_offset) :
  let delta_x := pt_x next - pt_x curr in
  let delta_y := pt_y next - pt_y curr in
  let sqr_d := NT.square delta_x + NT.square delta_y in
  ~ delta_x == 0 -> ~ delta_y == 0 ->
  offset_edge self fuel curr next r = Done e ->
  exists err_bound app_d app_err,
    (app_d * app_d == sqr_d
     /\ n_segments (segments e) = 1%Z
     /\ one_segment_run self fuel curr next r delta_x delta_y sqr_d
          (NT.sign delta_x) (NT.sign delta_y) e err_bound app_d app_err
     /\ let op1 := mk_Point_2 (pt_x curr + r * delta_y / app_d)
                              (pt_y curr + r * (- delta_x) / app_d) in
        let op2 := mk_Point_2 (pt_x next + r * delta_y / app_d)
                              (pt_y next + r * (- delta_x) / app_d) in
        e = mk_edge_offset op1 op2
              (One_segment (X_segment op1 op2)
                 (Sign_eqb (NT.sign delta_x) POSITIVE)))
    \/ (~ app_d * app_d == sqr_d
        /\ n_segments (segments e) = 2%Z
        /\ exists used_d,
            two_segment_run self fuel curr next r delta_x delta_y sqr_d
              (NT.sign delta_x) (NT.sign delta_y) e
              err_bound app_d app_err used_d).
Proof.
  intros delta_x delta_y sqr_d Hx Hy H.
  rewrite offset_edge_general in H by assumption.
  fold delta_x delta_y sqr_d in H.
  apply general_edge_inv in H.
  destruct H as (err_bound & app_d & app_err & [ [Hn R] | [Hn [used_d R]] ]);
    exists err_bound, app_d, app_err.
  - left. pose proof R as [(app_d0 & _ & Hrun) Hz Hnz He].
    apply refine_app_d_Done in Hrun; [ | reflexivity ].
    destruct Hrun as (Herr & _).
    apply sign_ZERO_iff in Hz. rewrite Herr in Hz. unfold NT.square in Hz.
    split; [ unfold sqr_d, NT.square in *; lra | ].
    split; [ exact Hn | ]. split; [ exact R | exact He ].
  - right.
    destruct (two_segment_run_accepted self fuel curr next r delta_x delta_y
                e err_bound app_d app_err used_d R)
      as (Herr & _ & _ & Hnz).
    split; [ | split; [ exact Hn | exists used_d; exact R ] ].
    intro E. apply Hnz. rewrite Herr. unfold sqr_d, NT.square in *. lra.
Qed.


Lemma exact_length_one_segment_witness :
  exists e : edge_offset,
    offset_edge (K := Cartesian.kernel) Examples.base_64th 10
      (mk_Point_2 4 3) (mk_Point_2 0 0) (1 # 2) = Done e
    /\ n_segments (segments e) = 1%Z
    /\ op1 e = mk_Point_2 (296 # 80) (272 # 80).
Proof.
  assert (Hx : ~ 0 - 4 == 0) by (intro H; vm_compute in H; discriminate H).
  assert (Hy : ~ 0 - 3 == 0) by (intro H; vm_compute in H; discriminate H).
  eexists. split; [ vm_compute; reflexivity | ].
  match goal with
  | |- n_segments (segments ?e) = _ /\ _ =>
      assert (Hrun : offset_edge (K := Cartesian.kernel) Examples.base_64th
                       10 (mk_Point_2 4 3) (mk_Point_2 0 0) (1 # 2)
                     = Done e) by (vm_compute; reflexivity);
      destruct (exact_length_one_segment (K := Cartesian.kernel)
                  Examples.base_64th 10 (mk_Point_2 4 3) (mk_Point_2 0 0)
                  (1 # 2) e Hx Hy Hrun)
        as (err_bound & app_d & app_err
            & [ (_ & Hn & _ & _) | (_ & Hn & _) ])
  end.
  - split; [ exact Hn | reflexivity ].
  - discriminate Hn.
Defined.

(** C4 as stated fails: the edge from (0,0) to (3/7,4/7) has the rational
    length 5/7, and with [eps = 1/64] the first approximation is [6/8]; one
    refinement step gives an accepted length that is not the root, and two
    segments are produced. *)
Lemma rational_length_two_segments :
  (5 # 7) * (5 # 7)
  == NT.square ((3 # 7) - 0) + NT.square ((4 # 7) - 0)
  /\ exists e : edge_offset,
      offset_edge (K := Cartesian.kernel) Examples.base_64th 10
        (mk_Point_2 0 0) (mk_Point_2 (3 # 7) (4 # 7)) 1 = Done e
      /\ n_segments (segments e) = 2%Z.
Proof.
  split; [ reflexivity | ].
  eexists. split; [ vm_compute; reflexivity | reflexivity ].
Qed.

(** ** The labels of a cycle *)

Lemma uint_incr_of_nat (n : nat) :
  uint_incr (Z.of_nat n mod uint_modulus)
  = (Z.of_nat (S n) mod uint_modulus)%Z.
Proof.
  unfold uint_incr. rewrite Nat2Z.inj_succ. unfold Z.succ.
  rewrite Z.add_mod_idemp_l by discriminate. reflexivity.
Qed.

Lemma indices_from_snoc (first n : nat) :
  indices_from first (S n)
  = indices_from first n
    ++ [(Z.of_nat (first + n) mod uint_modulus)%Z].
Proof.
  unfold indices_from. rewrite seq_S, map_app. reflexivity.
Qed.

Lemma indices_from_app (first n m : nat) :
  indices_from first n ++ indices_from (first + n) m
  = indices_from first (n + m).
Proof.
  unfold indices_from. rewrite <- map_app, <- seq_app. reflexivity.
Qed.

Lemma indices_from_0_app (n m : nat) :
  indices_from 0 n ++ indices_from n m = indices_from 0 (n + m).
Proof. exact (indices_from_app 0 n m). Qed.

Lemma indices_from_small (n : nat) :
  (Z.of_nat n <= uint_modulus)%Z ->
  indices_from 0 n = map Z.of_nat (seq 0 n).
Proof.
  intro H. unfold indices_from. apply map_ext_in.
  intros k Hk. apply in_seq in Hk. apply Z.mod_small. lia.
Qed.

Section Labels.

Context {K : Kernel} {T : Traits}.
Variable self : Approx_offset_base_2.
Variable c0 : list Labeled_curve_2.
Variable cycle_id : Z.

Lemma open_cycle_emit (cyc : list Labeled_curve_2)
  (oi : back_insert_iterator) (curve_index : Z)
  (xc : X_monotone_curve_2) (dir : bool) :
  open_cycle c0 cycle_id cyc oi curve_index ->
  open_cycle c0 cycle_id
    (cyc ++ [mk_Labeled_curve_2 xc
               (X_curve_label_3 dir cycle_id curve_index)])
    (oi_incr
       (oi_assign oi
          (mk_Labeled_curve_2 xc
             (X_curve_label_3 dir cycle_id curve_index))))
    (uint_incr curve_index).
Proof.
  intros (Hc & Hi & Hm & Hf). unfold open_cycle. simpl.
  rewrite Hc, length_app, Nat.add_1_r. simpl.
  repeat split.
  - rewrite app_assoc. reflexivity.
  - rewrite Hi. apply uint_incr_of_nat.
  - rewrite map_app, Hm, indices_from_snoc. simpl.
    unfold index_of at 1. simpl. rewrite Hi. reflexivity.
  - apply Forall_app. split; [ exact Hf | ].
    constructor; [ split; reflexivity | constructor ].
Qed.

Lemma emit_arcs_open_cycle (xobjs : list Object) :
  forall cyc oi curve_index oi' curve_index',
    open_cycle c0 cycle_id cyc oi curve_index ->
    emit_arcs cycle_id xobjs oi curve_index = Done (oi', curve_index') ->
    exists cyc', open_cycle c0 cycle_id cyc' oi' curve_index'.
Proof.
  induction xobjs as [ | obj xobjs IH ];
    intros cyc oi curve_index oi' curve_index' Hopen Hrun; simpl in Hrun.
  - injection Hrun as <- <-. exists cyc. exact Hopen.
  - bind_inv Hrun. rename v into xarc.
    apply IH with (cyc := cyc ++ [mk_Labeled_curve_2 xarc
                     (X_curve_label_3 (is_directed_right xarc) cycle_id
                        curve_index)]) in Hrun; [ exact Hrun | ].
    apply open_cycle_emit. exact Hopen.
Qed.

Lemma emit_segments_open_cycle (s : edge_segments) :
  forall cyc oi curve_index oi' curve_index',
    open_cycle c0 cycle_id cyc oi curve_index ->
    emit_segments cycle_id s oi curve_index = Done (oi', curve_index') ->
    exists cyc', open_cycle c0 cycle_id cyc' oi' curve_index'.
Proof.
  intros cyc oi curve_index oi' curve_index' Hopen Hrun.
  unfold emit_segments in Hrun. bind_inv Hrun.
  apply (open_cycle_emit _ _ _ (seg1_of s) (dir_right1_of s)) in Hopen.
  destruct s as [ seg1 d1 | seg1 d1 seg2 d2 ]; injection Hrun as <- <-.
  - eexists. exact Hopen.
  - eexists. exact (open_cycle_emit _ _ _ seg2 d2 Hopen).
Qed.

Lemma visit_edge_open_cycle (fuel : nat) (pgn : Polygon_2) (r : Q)
  (forward : bool) (first : nat) (st st' : traversal) (cyc : list _) :
  open_cycle c0 cycle_id cyc (t_oi st) (t_curve_index st) ->
  visit_edge self fuel pgn r cycle_id forward first st = Done st' ->
  exists cyc', open_cycle c0 cycle_id cyc' (t_oi st') (t_curve_index st').
Proof.
  intros Hopen Hrun. unfold visit_edge in Hrun.
  bind_inv Hrun. bind_inv Hrun. bind_inv Hrun. bind_inv Hrun.
  destruct v2 as [[oi1 ci1] first_op]. simpl in Hrun.
  bind_inv Hrun. destruct v2 as [oi2 ci2]. simpl in Hrun.
  injection Hrun as <-. simpl.
  assert (H1 : exists cyc1, open_cycle c0 cycle_id cyc1 oi1 ci1).
  { destruct (t_curr st =? first)%nat.
    - injection Hm2 as <- <- _. exists cyc. exact Hopen.
    - bind_inv Hm2. destruct v2 as [oi1' ci1']. simpl in Hm2.
      injection Hm2 as <- <- _.
      eapply emit_arcs_open_cycle; eassumption. }
  destruct H1 as [cyc1 H1].
  eapply emit_segments_open_cycle; eassumption.
Qed.

Lemma traverse_open_cycle (fuel : nat) (pgn : Polygon_2) (r : Q)
  (forward : bool) (first : nat) (steps : nat) :
  forall (st st' : traversal) (cyc : list Labeled_curve_2),
    open_cycle c0 cycle_id cyc (t_oi st) (t_curve_index st) ->
    traverse self fuel pgn r cycle_id forward first steps st = Done st' ->
    exists cyc',
      open_cycle c0 cycle_id cyc' (t_oi st') (t_curve_index st').
Proof.
  induction steps as [ | steps IH ]; intros st st' cyc Hopen Hrun;
    simpl in Hrun; [ discriminate | ].
  bind_inv Hrun.
  destruct (visit_edge_open_cycle fuel pgn r forward first st v cyc
              Hopen Hm) as [cyc1 H1].
  destruct (t_curr v =? first)%nat.
  - injection Hrun as <-. exists cyc1. exact H1.
  - eapply IH; eassumption.
Qed.

End Labels.

Lemma last_flags_cons (n : nat) :
  last_flags (S (S n)) = false :: last_flags (S n).
Proof. reflexivity. Qed.

Lemma last_flags_split (n : nat) (l : list Labeled_curve_2) :
  map is_last_of l = last_flags (S n) ->
  exists init last,
    l = init ++ [last] /\ is_last_of last = true
    /\ Forall (fun c => is_last_of c = false) init.
Proof.
  revert l. induction n as [ | n IH ]; intros l H.
  - destruct l as [ | c [ | c' l ] ]; try discriminate.
    injection H as H. exists [], c. repeat split; [ exact H | constructor ].
  - rewrite last_flags_cons in H.
    destruct l as [ | c l ]; [ discriminate | ].
    simpl in H. injection H as Hc Hl.
    destruct (IH l Hl) as (init & last & -> & Hlast & Hinit).
    exists (c :: init), last. repeat split; [ exact Hlast | ].
    constructor; assumption.
Qed.

Section Closing.

Context {T : Traits}.
Variable cycle_id : Z.

(** The closing loop on a back inserter: every piece is appended, with
    consecutive indices, and only the final one is marked. *)
Lemma emit_closing_arcs_appends (xobjs : list Object) :
  forall (l : list Labeled_curve_2) (n : nat) oi' curve_index',
    emit_closing_arcs cycle_id xobjs (back_inserter l)
      (Z.of_nat n mod uint_modulus)%Z = Done (oi', curve_index') ->
    exists added,
      container oi' = l ++ added
      /\ length added = length xobjs
      /\ map index_of added = indices_from n (length added)
      /\ Forall (fun c => component_of c = cycle_id) added
      /\ map is_last_of added = last_flags (length xobjs).
Proof.
  induction xobjs as [ | obj xobjs IH ];
    intros l n oi' curve_index' Hrun; simpl in Hrun.
  - injection Hrun as <- _. exists []. simpl.
    rewrite app_nil_r. repeat split; constructor.
  - bind_inv Hrun. rename v into xarc.
    rewrite uint_incr_of_nat in Hrun.
    apply (IH _ (S n)) in Hrun.
    destruct Hrun as (added & Hc & Hlen & Hidx & Hcomp & Hflags).
    eexists (_ :: added). rewrite Hc, <- app_assoc. simpl.
    split; [ reflexivity | ]. split; [ congruence | ].
    split; [ | split ].
    + unfold indices_from in *. simpl. rewrite Hidx. reflexivity.
    + constructor; [ reflexivity | exact Hcomp ].
    + rewrite Hflags. destruct xobjs; reflexivity.
Qed.

End Closing.

(** C3: the curves of one cycle, in the order they are emitted (appended
    through a back inserter), carry the sequence indices 0, 1, ..., N-1,
    where N is the number of curves emitted for the cycle, and the cycle id;
    exactly one of them is marked as the last, and it is the last one
    emitted.  The decomposition of an arc has at least one piece; the
    index is an [unsigned int], so N is at most [2^32]. *)
Theorem cycle_indices_and_last {K : Kernel} {T : Traits}
  (self : Approx_offset_base_2) (fuel : nat) (pgn : Polygon_2) (r : Q)
  (cycle_id : Z) (oi out : back_insert_iterator) :
  (forall arc : Curve_2, f_make_x_monotone arc <> []) ->
  _offset_polygon self fuel pgn r cycle_id oi = Done out ->
  exists cycle : list Labeled_curve_2,
    container out = container oi ++ cycle
    /\ ((Z.of_nat (length cycle) <= uint_modulus)%Z ->
        map index_of cycle = map Z.of_nat (seq 0 (length cycle)))
    /\ Forall (fun c => component_of c = cycle_id) cycle
    /\ exists init last,
        cycle = init ++ [last]
        /\ is_last_of last = true
        /\ Forall (fun c => is_last_of c = false) init.
Proof.
  intros Hnonempty Hrun. unfold _offset_polygon in Hrun.
  bind_inv Hrun. rename v into st.
  bind_inv Hrun. rename v into first_p.
  bind_inv Hrun. destruct v as [oi' ci']. simpl in Hrun.
  injection Hrun as <-.
  assert (Hinit : open_cycle (container oi) cycle_id [] oi 0%Z).
  { repeat split; simpl; [ symmetry; apply app_nil_r | constructor ]. }
  pose proof (fun H => traverse_open_cycle self (container oi) cycle_id
                          fuel pgn r _ 0%nat fuel _ st [] H Hm) as Ht.
  destruct (Ht Hinit) as (cyc & Hc & Hi & Hidx & Hf). clear Ht.
  destruct (t_oi st) as [l] eqn:El. simpl in Hc. subst l.
  rewrite Hi in Hm1.
  set (xobjs := f_make_x_monotone _) in Hm1.
  assert (Hx : xobjs <> []) by apply Hnonempty.
  apply emit_closing_arcs_appends in Hm1.
  destruct Hm1 as (added & Hout & Hlen & Hidx' & Hcomp & Hflags).
  exists (cyc ++ added). rewrite Hout, app_assoc.
  split; [ reflexivity | ]. split; [ | split ].
  - intro Hsmall. rewrite map_app, Hidx, Hidx'.
    rewrite indices_from_0_app.
    rewrite <- length_app. apply indices_from_small. exact Hsmall.
  - apply Forall_app. split; [ | exact Hcomp ].
    eapply Forall_impl; [ | exact Hf ]. cbv beta. tauto.
  - destruct xobjs as [ | obj xobjs' ]; [ congruence | ].
    simpl length in Hflags.
    destruct (last_flags_split _ _ Hflags) as (init & last & -> & Hl & Hin).
    exists (cyc ++ init), last. rewrite app_assoc.
    split; [ reflexivity | ]. split; [ exact Hl | ].
    apply Forall_app. split; [ | exact Hin ].
    eapply Forall_impl; [ | exact Hf ]. cbv beta. tauto.
Qed.

Lemma make_x_monotone_nonempty (arc : Curve_2) :
  f_make_x_monotone (Traits := Cartesian.traits) arc <> [].
Proof.
  simpl. unfold Cartesian.f_make_x_monotone.
  repeat match goal with
         | |- context [ if ?b then _ else _ ] => destruct b
         end; discriminate.
Qed.

Lemma cycle_indices_and_last_witness :
  exists out : back_insert_iterator,
    _offset_polygon (K := Cartesian.kernel) (T := Cartesian.traits)
      Examples.base_64th 10 Examples.triangle_3_4_5 (1 # 2) 7
      (back_inserter []) = Done out
    /\ exists cycle : list Labeled_curve_2,
        container out = [] ++ cycle
        /\ ((Z.of_nat (length cycle) <= uint_modulus)%Z ->
            map index_of cycle = map Z.of_nat (seq 0 (length cycle)))
        /\ Forall (fun c => component_of c = 7%Z) cycle
        /\ exists init last,
            cycle = init ++ [last]
            /\ is_last_of last = true
            /\ Forall (fun c => is_last_of c = false) init.
Proof.
  eexists. split.
  - vm_compute. reflexivity.
  - apply (cycle_indices_and_last (K := Cartesian.kernel)
             (T := Cartesian.traits) Examples.base_64th 10
             Examples.triangle_3_4_5 (1 # 2) 7 (back_inserter [])).
    + exact make_x_monotone_nonempty.
    + vm_compute. reflexivity.
Defined.

(** ** Preconditions *)

Lemma bind_never_rejects {A B : Type} (m : outcome A) (k : A -> outcome B) :
  m <> Abort Precondition_violation ->
  (forall a, k a <> Abort Precondition_violation) ->
  bind m k <> Abort Precondition_violation.
Proof.
  intros Hm Hk. destruct m as [ a | f | ]; simpl;
    [ apply Hk | | discriminate ].
  intro E. apply Hm. injection E as ->. reflexivity.
Qed.

Lemma Done_never_rejects {A : Type} (a : A) :
  Done a <> Abort Precondition_violation.
Proof. discriminate. Qed.

Lemma div_never_rejects (a b : Q) :
  NT.div a b <> Abort Precondition_violation.
Proof. unfold NT.div. destruct (Qeq_bool b 0); discriminate. Qed.

Lemma to_NT_never_rejects (d : double) :
  Double.to_NT d <> Abort Precondition_violation.
Proof. destruct d; discriminate. Qed.

Lemma to_int_never_rejects (d : double) :
  Double.to_int d <> Abort Precondition_violation.
Proof.
  unfold Double.to_int. destruct (Double.truncate d); [ | discriminate ].
  destruct (_ && _); discriminate.
Qed.

Lemma assertion_never_rejects (b : bool) :
  CGAL_assertion b <> Abort Precondition_violation.
Proof. destruct b; discriminate. Qed.

Lemma asserted_never_rejects {A : Type} (o : option A) :
  asserted o <> Abort Precondition_violation.
Proof. destruct o; discriminate. Qed.

Lemma circ_deref_never_rejects (pgn : Polygon_2) (i : nat) :
  circ_deref pgn i <> Abort Precondition_violation.
Proof. unfold circ_deref. destruct (nth_error pgn i); discriminate. Qed.

Create HintDb never_rejects.

#[local] Hint Resolve Done_never_rejects div_never_rejects
  to_NT_never_rejects to_int_never_rejects assertion_never_rejects
  asserted_never_rejects circ_deref_never_rejects : never_rejects.

Ltac never_rejects :=
  repeat first
    [ progress intros
    | apply bind_never_rejects
    | solve [ auto with never_rejects ]
    | match goal with
      | |- (let '(_, _) := ?p in _) <> _ => destruct p
      | |- (if ?b then _ else _) <> _ => destruct b
      | |- match ?s with One_segment _ _ => _ | _ => _ end <> _ =>
          destruct s
      end
    | progress simpl ].

Lemma halve_denom_never_rejects (fuel : nat) :
  forall dd denom,
    halve_denom fuel dd denom <> Abort Precondition_violation.
Proof.
  induction fuel as [ | fuel IH ]; intros dd denom; simpl;
    destruct (Double.ltb _ dd); auto; discriminate.
Qed.

Lemma refine_app_d_never_rejects (fuel : nat) :
  forall sqr_d err_bound adx ady app_d app_err,
    refine_app_d fuel sqr_d err_bound adx ady app_d app_err
    <> Abort Precondition_violation.
Proof.
  induction fuel as [ | fuel IH ];
    intros sqr_d err_bound adx ady app_d app_err; simpl;
    destruct (keep_refining err_bound adx ady app_d app_err);
    try discriminate.
  apply bind_never_rejects; [ apply div_never_rejects | ].
  intro q. apply IH.
Qed.

#[local] Hint Resolve halve_denom_never_rejects refine_app_d_never_rejects
  : never_rejects.

Lemma offset_edge_never_rejects {K : Kernel} (self : Approx_offset_base_2)
  (fuel : nat) (curr next : Point_2) (r : Q) :
  offset_edge self fuel curr next r <> Abort Precondition_violation.
Proof.
  unfold offset_edge, general_edge, first_approximation, bias_app_d,
    rotate_offset.
  never_rejects.
Qed.

#[local] Hint Resolve offset_edge_never_rejects : never_rejects.

Section NeverRejects.

Context {K : Kernel} {T : Traits}.
Context {It : Type} {OI : OutputIterator It}.
Variable self : Approx_offset_base_2.

Lemma emit_arcs_never_rejects (cycle_id : Z) (xobjs : list Object) :
  forall (oi : It) curve_index,
    emit_arcs cycle_id xobjs oi curve_index
    <> Abort Precondition_violation.
Proof.
  induction xobjs as [ | obj xobjs IH ]; intros oi curve_index; simpl;
    [ discriminate | ].
  apply bind_never_rejects; [ apply asserted_never_rejects | ].
  intro xarc. apply IH.
Qed.

Lemma emit_closing_arcs_never_rejects (cycle_id : Z)
  (xobjs : list Object) :
  forall (oi : It) curve_index,
    emit_closing_arcs cycle_id xobjs oi curve_index
    <> Abort Precondition_violation.
Proof.
  induction xobjs as [ | obj xobjs IH ]; intros oi curve_index; simpl;
    [ discriminate | ].
  apply bind_never_rejects; [ apply asserted_never_rejects | ].
  intro xarc. apply IH.
Qed.

Lemma emit_segments_never_rejects (cycle_id : Z) (s : edge_segments)
  (oi : It) (curve_index : Z) :
  emit_segments cycle_id s oi curve_index <> Abort Precondition_violation.
Proof.
  unfold emit_segments.
  apply bind_never_rejects; [ apply assertion_never_rejects | ].
  intros _. destruct s; discriminate.
Qed.

Lemma visit_edge_never_rejects (fuel : nat) (pgn : Polygon_2) (r : Q)
  (cycle_id : Z) (forward : bool) (first : nat) (st : traversal) :
  visit_edge self fuel pgn r cycle_id forward first st
  <> Abort Precondition_violation.
Proof.
  unfold visit_edge.
  apply bind_never_rejects; [ apply circ_deref_never_rejects | ].
  intro curr_p.
  apply bind_never_rejects; [ apply circ_deref_never_rejects | ].
  intro next_p.
  apply bind_never_rejects; [ apply offset_edge_never_rejects | ].
  intro e.
  apply bind_never_rejects.
  - destruct (t_curr st =? first)%nat; [ discriminate | ].
    apply bind_never_rejects; [ apply emit_arcs_never_rejects | ].
    intros [oi ci]. discriminate.
  - intros [[oi ci] first_op]. simpl.
    apply bind_never_rejects; [ apply emit_segments_never_rejects | ].
    intros [oi' ci']. discriminate.
Qed.

Lemma traverse_never_rejects (fuel : nat) (pgn : Polygon_2) (r : Q)
  (cycle_id : Z) (forward : bool) (first : nat) (steps : nat) :
  forall st : traversal,
    traverse self fuel pgn r cycle_id forward first steps st
    <> Abort Precondition_violation.
Proof.
  induction steps as [ | steps IH ]; intro st; simpl; [ discriminate | ].
  apply bind_never_rejects; [ apply visit_edge_never_rejects | ].
  intro st'. destruct (t_curr st' =? first)%nat; [ discriminate | apply IH ].
Qed.

Lemma offset_polygon_never_rejects (fuel : nat) (pgn : Polygon_2) (r : Q)
  (cycle_id : Z) (oi : It) :
  _offset_polygon self fuel pgn r cycle_id oi
  <> Abort Precondition_violation.
Proof.
  unfold _offset_polygon.
  apply bind_never_rejects; [ apply traverse_never_rejects | ].
  intro st.
  apply bind_never_rejects; [ apply circ_deref_never_rejects | ].
  intro first_p.
  apply bind_never_rejects; [ apply emit_closing_arcs_never_rejects | ].
  intros [oi' ci']. discriminate.
Qed.

End NeverRejects.

Lemma sign_of_nonpositive (eps : double) :
  Double.leb eps Double.zero = true ->
  Sign_eqb (Double.sign eps) POSITIVE = false.
Proof.
  unfold Double.sign, Double.leb, Double.ltb, Double.zero.
  destruct eps as [ s | s | | s m e ]; try destruct s; simpl;
    intro H; try discriminate; reflexivity.
Qed.

(** C8, as the code has it: [eps <= 0] is rejected as a precondition
    violation by the constructor of the algorithm object, before any
    traversal; the traversal itself checks no precondition, neither per
    edge nor at its start: the radius and the number of vertices are not
    checked, and no run of [_offset_polygon] or of the offset of an edge
    ends with a precondition violation. *)
Theorem preconditions_checked_at_construction :
  (forall eps : double,
     Double.leb eps Double.zero = true ->
     construct eps = Abort Precondition_violation)
  /\ (forall (K : Kernel) (T : Traits) (It : Type) (OI : OutputIterator It)
        (self : Approx_offset_base_2) (fuel : nat) (pgn : Polygon_2)
        (r : Q) (cycle_id : Z) (oi : It),
        _offset_polygon self fuel pgn r cycle_id oi
        <> Abort Precondition_violation)
  /\ (forall (K : Kernel) (self : Approx_offset_base_2) (fuel : nat)
        (curr next : Point_2) (r : Q),
        offset_edge self fuel curr next r <> Abort Precondition_violation).
Proof.
  split; [ | split ].
  - intros eps H. unfold construct.
    rewrite (sign_of_nonpositive eps H). reflexivity.
  - intros. apply offset_polygon_never_rejects.
  - intros. apply offset_edge_never_rejects.
Qed.

Lemma preconditions_checked_at_construction_witness :
  construct (Double.of_int (-1)) = Abort Precondition_violation.
Proof.
  apply (proj1 preconditions_checked_at_construction).
  reflexivity.
Defined.

(** C8 as stated fails: a run with the radius [-1/2] on the unit square,
    and a run with the radius [1/2] on a polygon of two vertices, are not
    rejected; both go through the traversal and return. *)
Lemma radius_and_size_not_checked :
  - (1 # 2) <= 0
  /\ (length Examples.two_vertices < 3)%nat
  /\ (exists out : back_insert_iterator,
        _offset_polygon (K := Cartesian.kernel) (T := Cartesian.traits)
          Examples.base_64th 10 Examples.unit_square (- (1 # 2)) 0
          (back_inserter []) = Done out
        /\ length (container out) = 8%nat)
  /\ (exists out : back_insert_iterator,
        _offset_polygon (K := Cartesian.kernel) (T := Cartesian.traits)
          Examples.base_64th 10 Examples.two_vertices (1 # 2) 0
          (back_inserter []) = Done out
        /\ length (container out) = 6%nat).
Proof.
  split; [ discriminate | ]. split; [ simpl; lia | ].
  split; eexists; (split; [ vm_compute; reflexivity | reflexivity ]).
Qed.

(** ** The closing arc and the output iterator *)

Lemma emit_closing_arcs_position {T : Traits} (cycle_id : Z)
  (xobjs : list Object) :
  forall (oi oi' : array_iterator) curve_index curve_index',
    emit_closing_arcs cycle_id xobjs oi curve_index
    = Done (oi', curve_index') ->
    position oi' = position oi.
Proof.
  induction xobjs as [ | obj xobjs IH ];
    intros oi oi' curve_index curve_index' Hrun; simpl in Hrun.
  - injection Hrun as <- _. reflexivity.
  - bind_inv Hrun. apply IH in Hrun. exact Hrun.
Qed.

(** C2, on the failing input: for the triangle (0,0), (4,0), (4,3) with
    radius 1/2 the cycle has seven curves, the last two being the pieces
    of the closing arc (indices 5 and 6).  Through an iterator into an
    array the five curves of the traversal fill the cells 0 to 4, both
    closing pieces are written to the cell 5, where the second replaces the
    first, and the iterator returned still points to the cell 5. *)
Theorem closing_pieces_share_a_cell :
  exists c0 c1 c2 c3 c4 c5 c6 : Labeled_curve_2,
    _offset_polygon (K := Cartesian.kernel) (T := Cartesian.traits)
      Examples.base_64th 10 Examples.triangle_3_4_5 (1 # 2) 7
      (back_inserter [])
    = Done (back_inserter [c0; c1; c2; c3; c4; c5; c6])
    /\ index_of c5 = 5%Z /\ is_last_of c5 = false
    /\ index_of c6 = 6%Z /\ is_last_of c6 = true
    /\ _offset_polygon (K := Cartesian.kernel) (T := Cartesian.traits)
         Examples.base_64th 10 Examples.triangle_3_4_5 (1 # 2) 7
         (Examples.fresh_array 8)
       = Done (mk_array_iterator
                 [Some c0; Some c1; Some c2; Some c3; Some c4; Some c6;
                  None; None] 5).
Proof.
  do 7 eexists. split; [ vm_compute; reflexivity | ].
  repeat split; vm_compute; reflexivity.
Qed.

(** ** The constructor *)

(** A [double] that is not negative: a zero, a positive number or plus
    infinity; the result of an operation may also be no number. *)
Lemma binary_round_aux_sign (s : bool) (m e : Z) (l : location) :
  match binary_round_aux Double.prec Double.emax s m e l with
  | S754_zero s' | S754_infinity s' | S754_finite s' _ _ => s' = s
  | S754_nan => True
  end.
Proof.
  unfold binary_round_aux.
  destruct (shr_fexp Double.prec Double.emax m e l) as [mrs' e'].
  destruct (shr_fexp Double.prec Double.emax _ e' loc_Exact) as [mrs'' e''].
  destruct (shr_m mrs''); [ reflexivity | | exact I ].
  destruct (Z.leb e'' _); reflexivity.
Qed.





(** ** The loop that halves the denominator *)

Lemma halving_stops_at_zero (dd : double) :
  Double.ltb (Double.div (Double.of_int max_int) (Double.of_int 0)) dd
  = false.
Proof.
  change (Double.div (Double.of_int max_int) (Double.of_int 0))
    with (S754_infinity false).
  destruct dd as [ s | [ | ] | | s m e ]; reflexivity.
Qed.

Lemma halve_denom_bounded (fuel : nat) :
  forall (dd : double) (denom : Z),
    (0 <= denom < 2 ^ Z.of_nat fuel)%Z ->
    exists d : Z,
      halve_denom fuel dd denom = Done d
      /\ (0 <= d <= denom)%Z
      /\ Double.ltb (Double.div (Double.of_int max_int) (Double.of_int d)) dd
         = false.
Proof.
  induction fuel as [ | fuel IH ]; intros dd denom Hd.
  - assert (denom = 0%Z) by (simpl in Hd; lia). subst denom.
    exists 0%Z.
    split; [ simpl; rewrite halving_stops_at_zero; reflexivity | ].
    split; [ lia | apply halving_stops_at_zero ].
  - simpl halve_denom.
    destruct (Double.ltb _ dd) eqn:C.
    + rewrite Nat2Z.inj_succ, Z.pow_succ_r in Hd by lia.
      assert (Hq : (0 <= denom ÷ 2 < 2 ^ Z.of_nat fuel)%Z).
      { rewrite Z.quot_div_nonneg by lia.
        split; [ apply Z.div_pos; lia | apply Z.div_lt_upper_bound; lia ]. }
      destruct (IH dd (denom ÷ 2)%Z Hq) as (d & Hrun & Hr & Hc).
      exists d. split; [ exact Hrun | ]. split; [ | exact Hc ].
      rewrite Z.quot_div_nonneg in Hr by lia.
      assert (denom / 2 <= denom)%Z by (apply Z.div_le_upper_bound; lia).
      lia.
    + exists denom. repeat split; try lia. exact C.
Qed.

(** X2: the loop that halves the denominator ends for every [double] [dd],
    also an infinite one or no number: from a denominator that is a
    non-negative [int], 31 iterations suffice; the result lies between 0 and
    the start value (0 is possible), and the loop condition is false for
    it. *)
Theorem halve_denom_terminates (fuel : nat) (dd : double) (denom : Z) :
  (0 <= denom <= Double.int_max)%Z -> (31 <= fuel)%nat ->
  exists d : Z,
    halve_denom fuel dd denom = Done d
    /\ (0 <= d <= denom)%Z
    /\ Double.ltb (Double.div (Double.of_int max_int) (Double.of_int d)) dd
       = false.
Proof.
  intros Hd Hf. apply halve_denom_bounded.
  unfold Double.int_max in Hd. split; [ lia | ].
  apply Z.lt_le_trans with (2 ^ 31)%Z; [ lia | ].
  apply Z.pow_le_mono_r; lia.
Qed.

Lemma halve_denom_terminates_witness :
  exists d : Z,
    halve_denom 31 (S754_infinity false) 5 = Done d
    /\ (0 <= d <= 5)%Z
    /\ Double.ltb (Double.div (Double.of_int max_int) (Double.of_int d))
         (S754_infinity false) = false.
Proof.
  apply (halve_denom_terminates 31 (S754_infinity false) 5).
  - unfold Double.int_max. lia.
  - lia.
Defined.

(** ** Failures of the refinement loop *)

Lemma newton_step_above_nonzero (sqr_d a : Q) :
  ~ a == 0 -> sqr_d <= newton_step sqr_d a * newton_step sqr_d a.
Proof.
  intro Ha.
  assert (E : newton_step sqr_d a * newton_step sqr_d a - sqr_d
              == ((a * a - sqr_d) / (2 * a)) * ((a * a - sqr_d) / (2 * a)))
    by (unfold newton_step; field; exact Ha).
  revert E. generalize ((a * a - sqr_d) / (2 * a)). intros t E.
  assert (0 <= t * t) by nra. lra.
Qed.

(** X3: once the loop has run its body, the length it returns is not below
    the root: a run that returns either returns the first approximation
    unchanged (no iteration) or a length with [sqr_d <= app_d^2], whatever
    the first approximation and the bound are. *)
Theorem refined_length_not_below_root (fuel : nat) :
  forall sqr_d err_bound abs_delta_x abs_delta_y app_d0 app_err0 app_d app_err,
    refine_app_d fuel sqr_d err_bound abs_delta_x abs_delta_y
      app_d0 app_err0 = Done (app_d, app_err) ->
    (app_d = app_d0 /\ app_err = app_err0
     /\ keep_refining err_bound abs_delta_x abs_delta_y app_d0 app_err0
        = false)
    \/ sqr_d <= app_d * app_d.
Proof.
  induction fuel as [ | fuel IH ];
    intros sqr_d err_bound adx ady a0 e0 a e Hrun; simpl in Hrun;
    destruct (keep_refining err_bound adx ady a0 e0) eqn:C;
    try discriminate.
  - injection Hrun as <- <-. left. auto.
  - bind_inv Hrun. apply div_Done_inv in Hm. destruct Hm as [Hnz ->].
    right. apply IH in Hrun.
    destruct Hrun as [ (-> & _ & _) | Hrun ]; [ | exact Hrun ].
    apply (newton_step_above_nonzero sqr_d a0 Hnz).
  - injection Hrun as <- <-. left. auto.
Qed.

Lemma refined_length_not_below_root_witness :
  exists app_d app_err : Q,
    refine_app_d 5 2 (1 # 100) 1 1 1 (2 - NT.square 1)
    = Done (app_d, app_err)
    /\ ((app_d = 1 /\ app_err = 2 - NT.square 1
         /\ keep_refining (1 # 100) 1 1 1 (2 - NT.square 1) = false)
        \/ 2 <= app_d * app_d).
Proof.
  do 2 eexists. split; [ vm_compute; reflexivity | ].
  apply (refined_length_not_below_root 5 2 (1 # 100) 1 1 1
           (2 - NT.square 1)).
  vm_compute. reflexivity.
Defined.

(** X4: when the first approximation of the length of a general edge is
    zero (the edge is shorter than half the inverse of the denominator), the
    first iteration of the refinement loop divides by it: the offset of the
    edge ends with a division by zero. *)
Theorem zero_first_approximation_aborts {K : Kernel}
  (self : Approx_offset_base_2) (fuel : nat) (curr next : Point_2)
  (r err_bound app_d0 : Q) :
  let delta_x := pt_x next - pt_x curr in
  let delta_y := pt_y next - pt_y curr in
  let sqr_d := NT.square delta_x + NT.square delta_y in
  ~ delta_x == 0 -> ~ delta_y == 0 ->
  first_approximation self (S fuel) sqr_d delta_x delta_y
  = Done (err_bound, app_d0) ->
  app_d0 == 0 ->
  offset_edge self (S fuel) curr next r = Abort Division_by_zero.
Proof.
  intros delta_x delta_y sqr_d Hx Hy Hfirst Hzero.
  rewrite offset_edge_general by assumption.
  fold delta_x delta_y sqr_d. unfold general_edge.
  rewrite Hfirst. cbn [bind]. cbv beta iota zeta.
  cbn [refine_app_d].
  match goal with
  | |- context [ keep_refining ?b ?x ?y ?a ?e ] =>
      destruct (keep_refining b x y a e) eqn:C
  end.
  - unfold NT.div. apply Qeq_bool_iff in Hzero. rewrite Hzero. reflexivity.
  - exfalso. apply keep_refining_false in C. destruct C as (_ & C & _).
    rewrite abs_by_sign in C. pose proof (Qabs_nonneg delta_x). lra.
Qed.

Lemma zero_first_approximation_aborts_witness :
  offset_edge (K := Cartesian.kernel) MoreExamples.base_1 10
    (mk_Point_2 0 0) (mk_Point_2 (1 # 10) (1 # 10)) 1
  = Abort Division_by_zero.
Proof.
  eapply (zero_first_approximation_aborts (K := Cartesian.kernel)
            MoreExamples.base_1 9 (mk_Point_2 0 0)
            (mk_Point_2 (1 # 10) (1 # 10)) 1).
  - intro H. vm_compute in H. discriminate H.
  - intro H. vm_compute in H. discriminate H.
  - vm_compute. reflexivity.
  - reflexivity.
Defined.

(** X5: from a positive first approximation of a positive squared length
    the refinement loop never fails: no iteration divides by zero, and a run
    either returns or has used up its iterations. *)
Theorem refine_app_d_never_fails (fuel : nat) :
  forall (sqr_d err_bound abs_delta_x abs_delta_y app_d0 app_err0 : Q)
         (f : failure),
    0 < sqr_d -> 0 < app_d0 ->
    refine_app_d fuel sqr_d err_bound abs_delta_x abs_delta_y
      app_d0 app_err0 <> Abort f.
Proof.
  induction fuel as [ | fuel IH ];
    intros sqr_d err_bound adx ady a0 e0 f HS Ha; simpl;
    destruct (keep_refining err_bound adx ady a0 e0); try discriminate.
  rewrite div_Done by lra. cbn [bind].
  apply IH; [ exact HS | ].
  apply (newton_step_pos sqr_d HS a0 Ha).
Qed.

Lemma refine_app_d_never_fails_witness :
  refine_app_d 3 2 0 1 1 1 (2 - NT.square 1) <> Abort Division_by_zero.
Proof.
  apply (refine_app_d_never_fails 3 2 0 1 1 1 (2 - NT.square 1)
           Division_by_zero); reflexivity.
Defined.

(** ** The number of iterations of the loop over the edges *)

Section Iterations.

Context {K : Kernel} {T : Traits}.
Context {It : Type} {OI : OutputIterator It}.
Variable self : Approx_offset_base_2.
Variable fuel : nat.
Variable pgn : Polygon_2.
Variable r : Q.
Variable cycle_id : Z.

Lemma visit_edge_cursor (forward : bool) (st st' : traversal) :
  visit_edge self fuel pgn r cycle_id forward 0 st = Done st' ->
  t_curr st' = (if forward then circ_incr pgn (t_next st)
                else circ_decr pgn (t_next st))
  /\ t_next st' = t_curr st'.
Proof.
  unfold visit_edge. intro H.
  bind_inv H. bind_inv H. bind_inv H. bind_inv H.
  destruct v2 as [[oi1 ci1] first_op]. cbv beta iota zeta in H.
  bind_inv H. destruct v2 as [oi2 ci2]. cbv beta iota zeta in H.
  injection H as <-. split; reflexivity.
Qed.

Lemma traverse_forward (k : nat) :
  forall (steps : nat) (st : traversal),
    (1 <= k)%nat -> (k <= steps)%nat ->
    (t_next st + k = length pgn)%nat ->
    traverse self fuel pgn r cycle_id true 0 steps st
    = repeat_visit k self fuel pgn r cycle_id true 0 st.
Proof.
  induction k as [ | k IH ]; intros steps st Hk Hs Hn; [ lia | ].
  destruct steps as [ | steps ]; [ lia | ]. simpl.
  destruct (visit_edge self fuel pgn r cycle_id true 0 st)
    as [ st' | f | ] eqn:V; simpl; try reflexivity.
  apply visit_edge_cursor in V. destruct V as [Hc Hnx].
  unfold circ_incr in Hc.
  destruct k as [ | k ].
  - destruct (Nat.ltb_spec (S (t_next st)) (length pgn)); [ lia | ].
    rewrite Hc. reflexivity.
  - destruct (Nat.ltb_spec (S (t_next st)) (length pgn)); [ | lia ].
    rewrite Hc. simpl Nat.eqb. cbv iota.
    apply IH; lia.
Qed.

Lemma traverse_backward (k : nat) :
  forall (steps : nat) (st : traversal),
    (1 <= k)%nat -> (k <= steps)%nat -> t_next st = k ->
    traverse self fuel pgn r cycle_id false 0 steps st
    = repeat_visit k self fuel pgn r cycle_id false 0 st.
Proof.
  induction k as [ | k IH ]; intros steps st Hk Hs Hn; [ lia | ].
  destruct steps as [ | steps ]; [ lia | ]. simpl.
  destruct (visit_edge self fuel pgn r cycle_id false 0 st)
    as [ st' | f | ] eqn:V; simpl; try reflexivity.
  apply visit_edge_cursor in V. destruct V as [Hc Hnx].
  rewrite Hn in Hc. simpl in Hc.
  destruct k as [ | k ].
  - rewrite Hc. reflexivity.
  - rewrite Hc. simpl Nat.eqb. cbv iota.
    apply IH; lia.
Qed.

End Iterations.

(** X6: the loop over the edges executes its body once per vertex: for a
    polygon with at least one vertex, in either direction, the loop started
    at the first vertex is the same as the sequence of [length pgn]
    executions of the body, after which the circulator is back at the first
    vertex; a failing execution ends both in the same way. *)
Theorem traverse_once_per_vertex {K : Kernel} {T : Traits}
  {It : Type} {OI : OutputIterator It}
  (self : Approx_offset_base_2) (fuel : nat) (pgn : Polygon_2) (r : Q)
  (cycle_id : Z) (forward : bool) (steps : nat) (st : traversal) :
  (1 <= length pgn)%nat -> (length pgn <= steps)%nat ->
  t_next st = 0%nat ->
  traverse self fuel pgn r cycle_id forward 0 steps st
  = repeat_visit (length pgn) self fuel pgn r cycle_id forward 0 st.
Proof.
  intros Hn Hs H0. destruct forward.
  - apply traverse_forward; lia.
  - destruct (length pgn) as [ | n ] eqn:En; [ lia | ].
    destruct steps as [ | steps ]; [ lia | ]. simpl.
    destruct (visit_edge self fuel pgn r cycle_id false 0 st)
      as [ st' | f | ] eqn:V; simpl; try reflexivity.
    apply visit_edge_cursor in V. destruct V as [Hc Hnx].
    rewrite H0 in Hc. simpl in Hc. rewrite En in Hc. simpl in Hc.
    destruct n as [ | n ].
    + rewrite Hc. reflexivity.
    + rewrite Hc. simpl Nat.eqb. cbv iota.
      apply traverse_backward; lia.
Qed.

Lemma traverse_once_per_vertex_witness :
  traverse (K := Cartesian.kernel) (T := Cartesian.traits)
    Examples.base_64th 10 Examples.triangle_3_4_5 (1 # 2) 7 true 0 10
    (mk_traversal 0 0 0 (back_inserter []) (mk_Point_2 0 0)
       (mk_Point_2 0 0) (mk_Point_2 0 0))
  = repeat_visit (length Examples.triangle_3_4_5)
      (K := Cartesian.kernel) (T := Cartesian.traits)
      Examples.base_64th 10 Examples.triangle_3_4_5 (1 # 2) 7 true 0
      (mk_traversal 0 0 0 (back_inserter []) (mk_Point_2 0 0)
         (mk_Point_2 0 0) (mk_Point_2 0 0)).
Proof.
  apply (traverse_once_per_vertex (K := Cartesian.kernel)
           (T := Cartesian.traits) Examples.base_64th 10
           Examples.triangle_3_4_5 (1 # 2) 7 true 10).
  - simpl. lia.
  - simpl. lia.
  - reflexivity.
Defined.

(** ** The cycle as a closed chain of curves *)

Lemma Point_equiv_refl (p : Point_2) : Point_equiv p p.
Proof. split; reflexivity. Qed.

Lemma Point_equiv_sym (p q : Point_2) : Point_equiv p q -> Point_equiv q p.
Proof. intros [H1 H2]. split; symmetry; assumption. Qed.

Lemma Point_equiv_trans (p q s : Point_2) :
  Point_equiv p q -> Point_equiv q s -> Point_equiv p s.
Proof. intros [H1 H2] [H3 H4]. split; etransitivity; eassumption. Qed.

Lemma Point_equiv_rebuilt (p : Point_2) :
  Point_equiv (mk_Point_2 (pt_x p) (pt_y p)) p.
Proof. split; reflexivity. Qed.

Lemma chain_from_start (s s' t : Point_2) (l : list X_monotone_curve_2) :
  Point_equiv s' s -> chain_from s l t -> chain_from s' l t.
Proof.
  intro E. destruct l as [ | c l ]; simpl.
  - apply Point_equiv_trans. exact E.
  - intros [H1 H2]. split; [ | exact H2 ].
    apply Point_equiv_trans with s; assumption.
Qed.

Lemma chain_from_end (l : list X_monotone_curve_2) :
  forall s t t' : Point_2,
    Point_equiv t t' -> chain_from s l t -> chain_from s l t'.
Proof.
  induction l as [ | c l IH ]; simpl; intros s t t' E.
  - intro H. apply Point_equiv_trans with t; assumption.
  - intros [H1 H2]. split; [ exact H1 | ]. apply IH with t; assumption.
Qed.

Lemma chain_from_app (l1 : list X_monotone_curve_2) :
  forall (l2 : list X_monotone_curve_2) (s m t : Point_2),
    chain_from s l1 m -> chain_from m l2 t -> chain_from s (l1 ++ l2) t.
Proof.
  induction l1 as [ | c l1 IH ]; simpl; intros l2 s m t H1 H2.
  - apply chain_from_start with m; assumption.
  - destruct H1 as [H1 H1']. split; [ exact H1 | ].
    apply IH with m; assumption.
Qed.

Lemma offset_edge_chain {K : Kernel} (self : Approx_offset_base_2)
  (fuel : nat) (curr next : Point_2) (r : Q) (e : edge_offset) :
  offset_edge self fuel curr next r = Done e ->
  chain_from (op1 e) (edge_curves (segments e)) (op2 e).
Proof.
  unfold offset_edge. intro H.
  destruct (Sign_eqb (NT.sign (pt_x next - pt_x curr)) ZERO).
  - bind_inv H. injection H as <-. unfold vertical_edge.
    destruct (Sign_eqb _ POSITIVE); simpl;
      repeat split; reflexivity.
  - destruct (Sign_eqb (NT.sign (pt_y next - pt_y curr)) ZERO).
    + injection H as <-. unfold horizontal_edge.
      destruct (Sign_eqb _ POSITIVE); simpl; repeat split; reflexivity.
    + unfold general_edge in H.
      bind_inv H. destruct v as [err_bound app_d0]. cbv beta iota zeta in H.
      bind_inv H. destruct v as [app_d app_err]. cbv beta iota zeta in H.
      destruct (Sign_eqb (NT.sign app_err) ZERO).
      * bind_inv H. bind_inv H. injection H as <-. simpl.
        repeat split; reflexivity.
      * bind_inv H. bind_inv H. bind_inv H. bind_inv H. bind_inv H.
        bind_inv H. injection H as <-. simpl.
        repeat split; reflexivity.
Qed.

Section Chain.

Context {K : Kernel} {T : Traits}.
Variable self : Approx_offset_base_2.
Variable cycle_id : Z.

Lemma emit_arcs_curves (pieces : list X_monotone_curve_2) :
  forall (l : list Labeled_curve_2) curve_index oi' curve_index',
    emit_arcs cycle_id (map Object_x_monotone_curve pieces)
      (back_inserter l) curve_index = Done (oi', curve_index') ->
    exists added,
      container oi' = l ++ added /\ map lc_curve added = pieces.
Proof.
  induction pieces as [ | c pieces IH ];
    intros l curve_index oi' curve_index' H; simpl in H.
  - injection H as <- _. exists []. split; [ symmetry; apply app_nil_r | ].
    reflexivity.
  - apply IH in H. destruct H as (added & Hc & Hm).
    eexists (_ :: added). rewrite Hc, <- app_assoc. simpl.
    split; [ reflexivity | ]. rewrite Hm. reflexivity.
Qed.

Lemma emit_closing_arcs_curves (pieces : list X_monotone_curve_2) :
  forall (l : list Labeled_curve_2) curve_index oi' curve_index',
    emit_closing_arcs cycle_id (map Object_x_monotone_curve pieces)
      (back_inserter l) curve_index = Done (oi', curve_index') ->
    exists added,
      container oi' = l ++ added /\ map lc_curve added = pieces.
Proof.
  induction pieces as [ | c pieces IH ];
    intros l curve_index oi' curve_index' H; simpl in H.
  - injection H as <- _. exists []. split; [ symmetry; apply app_nil_r | ].
    reflexivity.
  - apply IH in H. destruct H as (added & Hc & Hm).
    eexists (_ :: added). rewrite Hc, <- app_assoc. simpl.
    split; [ reflexivity | ]. rewrite Hm. reflexivity.
Qed.

Lemma emit_segments_curves (s : edge_segments)
  (l : list Labeled_curve_2) (curve_index : Z) oi' curve_index' :
  emit_segments cycle_id s (back_inserter l) curve_index
  = Done (oi', curve_index') ->
  exists added,
    container oi' = l ++ added /\ map lc_curve added = edge_curves s.
Proof.
  unfold emit_segments. intro H. bind_inv H.
  destruct s as [ seg1 d1 | seg1 d1 seg2 d2 ]; injection H as <- _; simpl.
  - eexists [_]. split; reflexivity.
  - eexists [_; _]. rewrite <- app_assoc. split; reflexivity.
Qed.

Hypothesis pieces_chain : chain_decomposition T.

Lemma visit_edge_closed_prefix (fuel : nat) (pgn : Polygon_2) (r : Q)
  (forward : bool) (l0 : list Labeled_curve_2)
  (st st' : traversal (It := back_insert_iterator)) :
  (t_curr st = 0%nat /\ container (t_oi st) = l0)
  \/ (t_curr st <> 0%nat /\ closed_prefix l0 st) ->
  visit_edge self fuel pgn r cycle_id forward 0 st = Done st' ->
  closed_prefix l0 st'.
Proof.
  intros Hpre H. unfold visit_edge in H.
  bind_inv H. rename v into curr_p. bind_inv H. rename v into next_p.
  bind_inv H. rename v into e. bind_inv H.
  destruct v as [[oi1 ci1] first_op]. cbv beta iota zeta in H.
  bind_inv H. destruct v as [oi2 ci2]. cbv beta iota zeta in H.
  injection H as <-. unfold closed_prefix. simpl.
  pose proof (offset_edge_chain _ _ _ _ _ _ Hm1) as He.
  destruct oi1 as [l1].
  apply emit_segments_curves in Hm3. destruct Hm3 as (segs & Hc2 & Hs).
  assert (Hsegs : segs <> []).
  { intro E. subst segs. destruct (segments e); discriminate Hs. }
  destruct Hpre as [ [H0 Hl0] | [H0 (cyc & Hc & Hne & Hch & Hprev)] ].
  - rewrite H0 in Hm2. simpl in Hm2. injection Hm2 as Hoi _ <-.
    exists segs. rewrite Hc2. rewrite Hoi in Hl0. simpl in Hl0.
    rewrite Hl0. repeat split; try assumption. rewrite Hs. exact He.
  - destruct (Nat.eqb_spec (t_curr st) 0); [ contradiction | ].
    bind_inv Hm2. destruct v as [oi1' ci1']. cbv beta iota zeta in Hm2.
    injection Hm2 as -> _ <-.
    destruct (pieces_chain
                (mk_Curve_2 curr_p r COUNTERCLOCKWISE
                   (mk_Point_2 (pt_x (t_prev_op st)) (pt_y (t_prev_op st)))
                   (mk_Point_2 (pt_x (op1 e)) (pt_y (op1 e)))))
      as (pieces & Hp & Hpc).
    rewrite Hp in Hm3. destruct (t_oi st) as [lst] eqn:Eoi.
    apply emit_arcs_curves in Hm3. destruct Hm3 as (arcs & Hc1 & Ha).
    simpl in Hc, Hc1, Hpc. subst lst.
    exists (cyc ++ arcs ++ segs). rewrite Hc2, Hc1, <- !app_assoc.
    split; [ reflexivity | ]. split.
    + intro E. apply app_eq_nil in E. tauto.
    + split; [ | reflexivity ].
      rewrite !map_app, Ha, Hs.
      apply chain_from_app with (t_op2 st); [ exact Hch | ].
      apply chain_from_app with (op1 e); [ | exact He ].
      apply chain_from_start
        with (mk_Point_2 (pt_x (t_prev_op st)) (pt_y (t_prev_op st))).
      * rewrite Hprev. apply Point_equiv_sym, Point_equiv_rebuilt.
      * apply chain_from_end
          with (mk_Point_2 (pt_x (op1 e)) (pt_y (op1 e)));
          [ apply Point_equiv_rebuilt | exact Hpc ].
Qed.

Lemma traverse_closed_prefix (fuel : nat) (pgn : Polygon_2) (r : Q)
  (forward : bool) (l0 : list Labeled_curve_2) (steps : nat) :
  forall st st' : traversal (It := back_insert_iterator),
    (t_curr st = 0%nat /\ container (t_oi st) = l0)
    \/ (t_curr st <> 0%nat /\ closed_prefix l0 st) ->
    traverse self fuel pgn r cycle_id forward 0 steps st = Done st' ->
    closed_prefix l0 st'.
Proof.
  induction steps as [ | steps IH ]; intros st st' Hpre H; simpl in H;
    [ discriminate | ].
  bind_inv H. rename v into st1.
  pose proof (visit_edge_closed_prefix fuel pgn r forward l0 st st1 Hpre Hm)
    as H1.
  destruct (Nat.eqb_spec (t_curr st1) 0).
  - injection H as <-. exact H1.
  - apply (IH st1 st'); [ right; split; assumption | exact H ].
Qed.

End Chain.

(** X7: when the pieces of every arc lead from its source to its target,
    the curves of a cycle form a closed chain: there is at least one curve,
    the first one starts at the first offset point, each curve starts where
    the one before ends, and the last one ends at the first offset point
    again. *)
Theorem cycle_is_closed_chain {K : Kernel} {T : Traits}
  (self : Approx_offset_base_2) (fuel : nat) (pgn : Polygon_2) (r : Q)
  (cycle_id : Z) (oi out : back_insert_iterator) :
  chain_decomposition T ->
  _offset_polygon self fuel pgn r cycle_id oi = Done out ->
  exists (cycle : list Labeled_curve_2) (first_op : Point_2),
    container out = container oi ++ cycle
    /\ cycle <> []
    /\ chain_from first_op (map lc_curve cycle) first_op.
Proof.
  intros Hchain H. unfold _offset_polygon in H.
  bind_inv H. rename v into st. bind_inv H. rename v into first_p.
  bind_inv H. destruct v as [oi' ci']. cbv beta iota zeta in H.
  injection H as <-.
  apply (traverse_closed_prefix self cycle_id Hchain fuel pgn r _
           (container oi)) in Hm;
    [ | left; split; reflexivity ].
  destruct Hm as (cyc & Hc & Hne & Hch & _).
  destruct (Hchain
              (mk_Curve_2 first_p r COUNTERCLOCKWISE
                 (mk_Point_2 (pt_x (t_op2 st)) (pt_y (t_op2 st)))
                 (mk_Point_2 (pt_x (t_first_op st)) (pt_y (t_first_op st)))))
    as (pieces & Hp & Hpc).
  rewrite Hp in Hm1. destruct (t_oi st) as [lst] eqn:Eoi.
  apply emit_closing_arcs_curves in Hm1. destruct Hm1 as (arcs & Hc1 & Ha).
  simpl in Hc, Hpc. subst lst.
  exists (cyc ++ arcs), (t_first_op st). rewrite Hc1, <- app_assoc.
  split; [ reflexivity | ]. split.
  - intro E. apply app_eq_nil in E. tauto.
  - rewrite map_app, Ha.
    apply chain_from_app with (t_op2 st); [ exact Hch | ].
    apply chain_from_start
      with (mk_Point_2 (pt_x (t_op2 st)) (pt_y (t_op2 st)));
      [ apply Point_equiv_sym, Point_equiv_rebuilt | ].
    apply chain_from_end
      with (mk_Point_2 (pt_x (t_first_op st)) (pt_y (t_first_op st)));
      [ apply Point_equiv_rebuilt | exact Hpc ].
Qed.

Lemma Point_eqb_equiv (p q : Point_2) :
  Cartesian.Point_eqb p q = true -> Point_equiv p q.
Proof.
  unfold Cartesian.Point_eqb. intro H. apply andb_prop in H.
  destruct H as [H1 H2]. split; apply Qeq_bool_iff; assumption.
Qed.

Lemma Cartesian_chain_decomposition : chain_decomposition Cartesian.traits.
Proof.
  intro arc. simpl. unfold Cartesian.f_make_x_monotone.
  destruct arc as [c rad o s t]. cbv beta iota zeta. simpl arc_source.
  simpl arc_target. simpl arc_center. simpl arc_radius.
  simpl arc_orientation.
  set (left := mk_Point_2 (pt_x c - Qabs rad) (pt_y c)).
  set (right := mk_Point_2 (pt_x c + Qabs rad) (pt_y c)).
  destruct (_ || _); destruct (_ || _);
    try destruct (Cartesian.ltb _ _);
    try (destruct (Cartesian.Point_eqb left t) eqn:El;
         [ apply Point_eqb_equiv in El | ]);
    try (destruct (Cartesian.Point_eqb right t) eqn:Er;
         [ apply Point_eqb_equiv in Er | ]);
    simpl;
    first
      [ exists [X_arc c rad o s t]; split; [ reflexivity | ]
      | exists [X_arc c rad o s left; X_arc c rad o left right;
                X_arc c rad o right t]; split; [ reflexivity | ]
      | exists [X_arc c rad o s left; X_arc c rad o left right];
        split; [ reflexivity | ]
      | exists [X_arc c rad o s left; X_arc c rad o left t];
        split; [ reflexivity | ]
      | exists [X_arc c rad o s left]; split; [ reflexivity | ]
      | exists [X_arc c rad o s right; X_arc c rad o right left;
                X_arc c rad o left t]; split; [ reflexivity | ]
      | exists [X_arc c rad o s right; X_arc c rad o right left];
        split; [ reflexivity | ]
      | exists [X_arc c rad o s right; X_arc c rad o right t];
        split; [ reflexivity | ]
      | exists [X_arc c rad o s right]; split; [ reflexivity | ] ];
    simpl; repeat split; try reflexivity; try (apply El); try (apply Er).
Qed.

Lemma cycle_is_closed_chain_witness :
  exists out : back_insert_iterator,
    _offset_polygon (K := Cartesian.kernel) (T := Cartesian.traits)
      Examples.base_0345 10
      [mk_Point_2 0 0; mk_Point_2 1 0; mk_Point_2 1 1] (1 # 2) 7
      (back_inserter []) = Done out
    /\ exists (cycle : list Labeled_curve_2) (first_op : Point_2),
        container out = [] ++ cycle
        /\ cycle <> []
        /\ chain_from first_op (map lc_curve cycle) first_op.
Proof.
  eexists. split.
  - vm_compute. reflexivity.
  - apply (cycle_is_closed_chain (K := Cartesian.kernel)
             (T := Cartesian.traits) Examples.base_0345 10
             [mk_Point_2 0 0; mk_Point_2 1 0; mk_Point_2 1 1] (1 # 2) 7
             (back_inserter [])).
    + exact Cartesian_chain_decomposition.
    + vm_compute. reflexivity.
Defined.

(** ** The emission loops through an iterator into an array *)

Lemma write_cell_length (l : list (option Labeled_curve_2)) :
  forall (i : nat) (c : Labeled_curve_2),
    length (write_cell l i c) = length l.
Proof.
  induction l as [ | x l IH ]; intros i c; [ reflexivity | ].
  destruct i as [ | i ]; simpl; [ reflexivity | ]. rewrite IH. reflexivity.
Qed.

Lemma write_cell_other (l : list (option Labeled_curve_2)) :
  forall (i j : nat) (c : Labeled_curve_2),
    i <> j -> nth_error (write_cell l i c) j = nth_error l j.
Proof.
  induction l as [ | x l IH ]; intros i j c Hij; [ reflexivity | ].
  destruct i as [ | i ], j as [ | j ]; simpl; try reflexivity;
    try contradiction.
  apply IH. intro E. apply Hij. rewrite E. reflexivity.
Qed.

Lemma write_cell_same (l : list (option Labeled_curve_2)) :
  forall (i : nat) (c : Labeled_curve_2),
    (i < length l)%nat -> nth_error (write_cell l i c) i = Some (Some c).
Proof.
  induction l as [ | x l IH ]; intros i c Hi; simpl in Hi; [ lia | ].
  destruct i as [ | i ]; simpl; [ reflexivity | ]. apply IH. lia.
Qed.

Section ArrayIterator.

Context {T : Traits}.
Variable cycle_id : Z.

Lemma emit_arcs_advances (xobjs : list Object) :
  forall (oi oi' : array_iterator) curve_index curve_index',
    emit_arcs cycle_id xobjs oi curve_index = Done (oi', curve_index') ->
    position oi' = (position oi + length xobjs)%nat.
Proof.
  induction xobjs as [ | obj xobjs IH ];
    intros oi oi' curve_index curve_index' H; simpl in H.
  - injection H as <- _. simpl. lia.
  - bind_inv H. apply IH in H. simpl in H. simpl length. lia.
Qed.

Lemma emit_segments_advances (s : edge_segments)
  (oi oi' : array_iterator) (curve_index curve_index' : Z) :
  emit_segments cycle_id s oi curve_index = Done (oi', curve_index') ->
  Z.of_nat (position oi') = (Z.of_nat (position oi) + n_segments s)%Z.
Proof.
  unfold emit_segments. intro H. bind_inv H.
  destruct s; injection H as <- _; simpl; lia.
Qed.

(** X8: through an iterator into an array the closing loop never moves the
    iterator: every piece of the closing arc is written to the cell the
    iterator points to after the traversal, the other cells and the size of
    the array stay as they are, and when there is a piece and the cell
    exists it finally holds the piece marked as the last of the cycle. *)
Theorem closing_arcs_write_one_cell (xobjs : list Object) :
  forall (oi oi' : array_iterator) curve_index curve_index',
    emit_closing_arcs cycle_id xobjs oi curve_index
    = Done (oi', curve_index') ->
    position oi' = position oi
    /\ length (cells oi') = length (cells oi)
    /\ (forall i : nat, i <> position oi ->
          nth_error (cells oi') i = nth_error (cells oi) i)
    /\ (xobjs <> [] -> (position oi < length (cells oi))%nat ->
        exists c : Labeled_curve_2,
          nth_error (cells oi') (position oi) = Some (Some c)
          /\ is_last_of c = true).
Proof.
  induction xobjs as [ | obj xobjs IH ];
    intros oi oi' curve_index curve_index' H; simpl in H.
  - injection H as <- _. repeat split; try reflexivity.
    intro E. contradiction.
  - bind_inv H. rename v into xarc. destruct xobjs as [ | obj' xobjs ].
    + simpl in H. injection H as <- _. simpl. rewrite write_cell_length.
      split; [ reflexivity | ]. split; [ reflexivity | ]. split.
      * intros i Hi. apply write_cell_other.
        intro E. apply Hi. rewrite E. reflexivity.
      * intros _ Hin. eexists.
        split; [ apply write_cell_same; exact Hin | reflexivity ].
    + apply IH in H. simpl position in H. simpl cells in H.
      destruct H as (Hp & Hl & Ho & Hlast).
      rewrite write_cell_length in Hl, Hlast.
      split; [ exact Hp | ]. split; [ exact Hl | ]. split.
      * intros i Hi. rewrite (Ho i Hi). apply write_cell_other.
        intro E. apply Hi. rewrite E. reflexivity.
      * intros _ Hin. apply Hlast; [ discriminate | exact Hin ].
Qed.

End ArrayIterator.

Lemma closing_arcs_write_one_cell_witness :
  exists (oi' : array_iterator) (curve_index' : Z),
    emit_closing_arcs (T := Cartesian.traits) 7
      (f_make_x_monotone (Traits := Cartesian.traits)
         (mk_Curve_2 (mk_Point_2 0 0) (1 # 2) COUNTERCLOCKWISE
            (mk_Point_2 0 (1 # 2)) (mk_Point_2 0 (- (1 # 2)))))
      (mk_array_iterator [None; None; None] 1) 5
    = Done (oi', curve_index')
    /\ position oi' = 1%nat
    /\ length (cells oi') = 3%nat
    /\ (forall i : nat, i <> 1%nat ->
          nth_error (cells oi') i = nth_error [None; None; None] i)
    /\ exists c : Labeled_curve_2,
        nth_error (cells oi') 1 = Some (Some c) /\ is_last_of c = true.
Proof.
  do 2 eexists. split; [ vm_compute; reflexivity | ].
  destruct (closing_arcs_write_one_cell (T := Cartesian.traits) 7
              (f_make_x_monotone (Traits := Cartesian.traits)
                 (mk_Curve_2 (mk_Point_2 0 0) (1 # 2) COUNTERCLOCKWISE
                    (mk_Point_2 0 (1 # 2)) (mk_Point_2 0 (- (1 # 2)))))
              (mk_array_iterator [None; None; None] 1) _ 5 _
              ltac:(vm_compute; reflexivity))
    as (Hp & Hl & Ho & Hlast).
  split; [ exact Hp | ]. split; [ exact Hl | ]. split; [ exact Ho | ].
  apply Hlast; [ vm_compute; discriminate | simpl; lia ].
Defined.

Lemma emit_arcs_index (T : Traits) (It : Type) (OI : OutputIterator It)
  (cycle_id : Z) (xobjs : list Object) :
  forall (oi oi' : It) curve_index curve_index',
    emit_arcs cycle_id xobjs oi curve_index = Done (oi', curve_index') ->
    curve_index' = Nat.iter (length xobjs) uint_incr curve_index.
Proof.
  induction xobjs as [ | obj xobjs IH ];
    intros oi oi' curve_index curve_index' H; simpl in H.
  - injection H as _ <-. reflexivity.
  - bind_inv H. apply IH in H. rewrite H. simpl length.
    rewrite Nat.iter_succ_r. reflexivity.
Qed.

(** X9: in the loop over the edges an iterator into an array and the
    sequence index move together: the pieces of a connecting arc and the
    segment(s) of an edge each advance the iterator by one cell and the
    index by one (as an [unsigned int]) per curve. *)
Theorem traversal_emission_advances {T : Traits} (cycle_id : Z)
  (oi oi' : array_iterator) (curve_index curve_index' : Z) :
  (forall xobjs : list Object,
     emit_arcs cycle_id xobjs oi curve_index = Done (oi', curve_index') ->
     position oi' = (position oi + length xobjs)%nat
     /\ curve_index' = Nat.iter (length xobjs) uint_incr curve_index)
  /\ (forall s : edge_segments,
        emit_segments cycle_id s oi curve_index = Done (oi', curve_index') ->
        position oi' = (position oi + Z.to_nat (n_segments s))%nat
        /\ curve_index'
           = Nat.iter (Z.to_nat (n_segments s)) uint_incr curve_index).
Proof.
  split.
  - intros xobjs H. split.
    + apply (emit_arcs_advances cycle_id xobjs oi oi' _ _ H).
    + apply (emit_arcs_index T _ _ cycle_id xobjs oi oi' _ _ H).
  - intros s H. unfold emit_segments in H. bind_inv H.
    destruct s; injection H as <- <-; simpl; split;
      try reflexivity; lia.
Qed.

Lemma traversal_emission_advances_witness :
  exists (oi' : array_iterator) (curve_index' : Z),
    emit_segments (It := array_iterator) 7
      (Two_segments (X_segment (mk_Point_2 0 0) (mk_Point_2 1 0)) true
                    (X_segment (mk_Point_2 1 0) (mk_Point_2 2 1)) true)
      (mk_array_iterator [None; None; None] 1) 4
    = Done (oi', curve_index')
    /\ position oi' = 3%nat /\ curve_index' = 6%Z.
Proof.
  do 2 eexists. split; [ vm_compute; reflexivity | ].
  apply (proj2 (traversal_emission_advances (T := Cartesian.traits) 7
                  (mk_array_iterator [None; None; None] 1) _ 4 _)
           (Two_segments (X_segment (mk_Point_2 0 0) (mk_Point_2 1 0)) true
                         (X_segment (mk_Point_2 1 0) (mk_Point_2 2 1)) true)).
  vm_compute. reflexivity.
Defined.

(** ** The failures of a general edge after the refinement *)

Lemma rotate_offset_Done (x y r t : Q) :
  exists p : Point_2, rotate_offset x y r t = Done p.
Proof.
  unfold rotate_offset.
  assert (Hnz : ~ 1 + NT.square t == 0) by (unfold NT.square; nra).
  rewrite !div_Done by exact Hnz. simpl. eexists. reflexivity.
Qed.

(** X10: once the refinement loop has returned for a general edge, the
    offset of the edge cannot run out of iterations and fails in two ways
    only: the two tangent lines do not meet in a point (assertion), or the
    division by [app_d + delta_y] is a division by zero, which needs
    [delta_x < 0], [delta_y < 0] and an accepted length above the root with
    [app_d * |delta_y| = sqr_d].  No other division fails. *)
Theorem general_edge_failures {K : Kernel} (self : Approx_offset_base_2)
  (fuel : nat) (curr next : Point_2) (r err_bound app_d0 app_d app_err : Q) :
  let delta_x := pt_x next - pt_x curr in
  let delta_y := pt_y next - pt_y curr in
  let sqr_d := NT.square delta_x + NT.square delta_y in
  ~ delta_x == 0 -> ~ delta_y == 0 ->
  first_approximation self fuel sqr_d delta_x delta_y
  = Done (err_bound, app_d0) ->
  refine_app_d fuel sqr_d err_bound
    (if Sign_eqb (NT.sign delta_x) POSITIVE then delta_x else - delta_x)
    (if Sign_eqb (NT.sign delta_y) POSITIVE then delta_y else - delta_y)
    app_d0 (sqr_d - NT.square app_d0) = Done (app_d, app_err) ->
  (exists e : edge_offset, offset_edge self fuel curr next r = Done e)
  \/ offset_edge self fuel curr next r = Abort Assertion_violation
  \/ (offset_edge self fuel curr next r = Abort Division_by_zero
      /\ delta_x < 0 /\ delta_y < 0
      /\ sqr_d < app_d * app_d /\ app_d * (- delta_y) == sqr_d).
Proof.
  intros delta_x delta_y sqr_d Hx Hy Hfirst Hrun.
  rewrite offset_edge_general by assumption.
  fold delta_x delta_y sqr_d. unfold general_edge.
  rewrite Hfirst. cbn [bind]. cbv beta iota zeta.
  rewrite Hrun. cbn [bind]. cbv beta iota zeta.
  apply refine_app_d_Done in Hrun; [ | reflexivity ].
  destruct Hrun as (Herr & _ & Hax & Hay).
  rewrite abs_by_sign in Hax, Hay.
  pose proof (Qabs_nonneg delta_x) as Hnx.
  pose proof (Qabs_nonneg delta_y) as Hny.
  assert (Hpos : 0 < app_d) by lra.
  assert (HS : 0 < sqr_d) by (unfold sqr_d, NT.square; nra).
  assert (Herr' : app_err == sqr_d - app_d * app_d)
    by (rewrite Herr; reflexivity).
  destruct (Sign_eqb (NT.sign app_err) ZERO) eqn:Z.
  - left. rewrite !div_Done by lra. simpl. eexists. reflexivity.
  - assert (Hnz : ~ app_err == 0).
    { intro E. apply sign_ZERO_iff in E. congruence. }
    destruct (bias_app_d_value delta_x app_err sqr_d app_d)
      as (u & Hu & Hw & Hnw); try assumption; try lra.
    rewrite Hu. cbn [bind].
    rewrite (div_Done (u - delta_y) (- delta_x)) by lra. cbn [bind].
    assert (Hq : sqr_d / app_d * app_d == sqr_d) by (field; lra).
    assert (Hqpos : 0 < sqr_d / app_d) by (apply Qlt_shift_div_l; lra).
    destruct (Qeq_bool (u + delta_y) 0) eqn:D.
    + right; right. unfold NT.div at 1. rewrite D. cbn [bind].
      split; [ reflexivity | ]. apply Qeq_bool_iff in D.
      assert (Hside : (delta_x < 0 /\ app_err < 0)
                      \/ (0 < delta_x /\ 0 < app_err)).
      { destruct (Qlt_le_dec delta_x 0), (Qlt_le_dec app_err 0);
          try (left; split; assumption);
          try (right; split; lra);
          exfalso;
          (assert (Hua : u = app_d)
             by (apply Hnw; intros [ [A B] | [A B] ]; lra));
          subst u;
          revert Hay; apply Qabs_case; intros; lra. }
      rewrite (Hw Hside) in D.
      revert Hq Hqpos D. generalize (sqr_d / app_d). intros q Hq Hqpos D.
      destruct Hside as [ [A B] | [A B] ].
      * repeat split; try lra. rewrite <- Hq.
        assert (q == - delta_y) by lra. nra.
      * exfalso. assert (app_d < q) by nra.
        revert Hay. apply Qabs_case; intros; lra.
    + assert (Hd : ~ u + delta_y == 0).
      { intro E. apply Qeq_bool_iff in E. congruence. }
      rewrite (div_Done (- delta_x) (u + delta_y)) by exact Hd. cbn [bind].
      destruct (rotate_offset_Done (pt_x curr) (pt_y curr) r
                  ((u - delta_y) / - delta_x)) as [p1 ->].
      destruct (rotate_offset_Done (pt_x next) (pt_y next) r
                  (- delta_x / (u + delta_y))) as [p2 ->].
      cbn [bind]. cbv beta iota zeta.
      destruct (assign_point _) as [ mid_p | ]; simpl.
      * left. eexists. reflexivity.
      * right; left. reflexivity.
Qed.

Lemma general_edge_failures_witness :
  (exists e : edge_offset,
     offset_edge (K := Cartesian.kernel) Examples.base_0345 10
       (mk_Point_2 0 0) (mk_Point_2 1 1) 0 = Done e)
  \/ offset_edge (K := Cartesian.kernel) Examples.base_0345 10
       (mk_Point_2 0 0) (mk_Point_2 1 1) 0 = Abort Assertion_violation
  \/ (offset_edge (K := Cartesian.kernel) Examples.base_0345 10
        (mk_Point_2 0 0) (mk_Point_2 1 1) 0 = Abort Division_by_zero
      /\ 1 - 0 < 0 /\ 1 - 0 < 0
      /\ NT.square (1 - 0) + NT.square (1 - 0) < (7 # 5) * (7 # 5)
      /\ (7 # 5) * (- (1 - 0)) == NT.square (1 - 0) + NT.square (1 - 0)).
Proof.
  eapply (general_edge_failures (K := Cartesian.kernel) Examples.base_0345
            10 (mk_Point_2 0 0) (mk_Point_2 1 1) 0).
  - intro H. vm_compute in H. discriminate H.
  - intro H. vm_compute in H. discriminate H.
  - vm_compute. reflexivity.
  - vm_compute. reflexivity.
Defined.

(** ** The direction flag of a single segment *)

Lemma comp_xy_SMALLER_iff (p q : Point_2) :
  Comparison_eqb (Cartesian.f_comp_xy p q) SMALLER = true
  <-> pt_x p < pt_x q \/ (pt_x p == pt_x q /\ pt_y p < pt_y q).
Proof.
  unfold Cartesian.f_comp_xy, NT.compare.
  destruct (Qcompare_spec (pt_x p) (pt_x q)) as [ Ex | Lx | Gx ]; simpl.
  - destruct (Qcompare_spec (pt_y p) (pt_y q)) as [ Ey | Ly | Gy ]; simpl;
      split; intro H;
      try discriminate; try reflexivity;
      try (right; split; assumption);
      destruct H as [ H' | [_ H'] ]; lra.
  - split; intro H; [ left; exact Lx | reflexivity ].
  - split; intro H; [ discriminate | destruct H as [ H' | [H' _] ]; lra ].
Qed.

Lemma bool_eq_iff (a b : bool) (P : Prop) :
  (a = true <-> P) -> (b = true <-> P) -> a = b.
Proof. destruct a, b; intuition congruence. Qed.

(** X11: when the offset of an edge is a single segment, the segment runs
    from [op1] to [op2] and its direction flag says whether [op1] is
    lexicographically smaller than [op2]: the flag derived from the sign of
    [delta_x] (or of [delta_y] for a vertical edge) agrees with the
    comparison of the end points that the two-segment case computes. *)
Theorem single_segment_direction {K : Kernel} (self : Approx_offset_base_2)
  (fuel : nat) (curr next : Point_2) (r : Q) (e : edge_offset) :
  offset_edge self fuel curr next r = Done e ->
  n_segments (segments e) = 1%Z ->
  segments e
  = One_segment (X_segment (op1 e) (op2 e))
      (Comparison_eqb (Cartesian.f_comp_xy (op1 e) (op2 e)) SMALLER).
Proof.
  intros H Hn. unfold offset_edge in H.
  set (delta_x := pt_x next - pt_x curr) in *.
  set (delta_y := pt_y next - pt_y curr) in *.
  destruct (Sign_eqb (NT.sign delta_x) ZERO) eqn:Zx.
  - bind_inv H. injection H as <-.
    apply sign_ZERO_iff in Zx. unfold vertical_edge.
    destruct (Sign_eqb (NT.sign delta_y) POSITIVE) eqn:Py; simpl;
      f_equal; symmetry.
    + apply comp_xy_SMALLER_iff. simpl. apply sign_POSITIVE_iff in Py.
      unfold delta_x, delta_y in *. right. split; lra.
    + apply (bool_false_iff _ _ (comp_xy_SMALLER_iff _ _)). simpl.
      apply (bool_false_iff _ _ (sign_POSITIVE_iff _)) in Py.
      unfold delta_x, delta_y in *. intros [ A | [_ A] ]; lra.
  - destruct (Sign_eqb (NT.sign delta_y) ZERO) eqn:Zy.
    + injection H as <-.
      apply (bool_false_iff _ _ (sign_ZERO_iff _)) in Zx.
      unfold horizontal_edge.
      destruct (Sign_eqb (NT.sign delta_x) POSITIVE) eqn:Px; simpl;
        f_equal; symmetry.
      * apply comp_xy_SMALLER_iff. simpl. apply sign_POSITIVE_iff in Px.
        unfold delta_x in *. left. lra.
      * apply (bool_false_iff _ _ (comp_xy_SMALLER_iff _ _)). simpl.
        apply (bool_false_iff _ _ (sign_POSITIVE_iff _)) in Px.
        unfold delta_x in *. intros [ A | [A _] ]; lra.
    + apply general_edge_inv in H.
      destruct H as (err_bound & app_d & app_err
                     & [ [_ R] | [Hc _] ]); [ | congruence ].
      destruct R as [_ _ _ ->]. cbn [segments op1 op2]. f_equal.
      apply (bool_false_iff _ _ (sign_ZERO_iff _)) in Zx.
      apply (bool_eq_iff _ _ (0 < delta_x)).
      * apply sign_POSITIVE_iff.
      * split; intro A.
        -- apply comp_xy_SMALLER_iff in A. cbn [pt_x pt_y] in A.
           unfold delta_x in *. destruct A as [ A | [A _] ]; lra.
        -- apply comp_xy_SMALLER_iff. cbn [pt_x pt_y].
           unfold delta_x in *. left. lra.
Qed.

Lemma single_segment_direction_witness :
  exists e : edge_offset,
    offset_edge (K := Cartesian.kernel) Examples.base_64th 10
      (mk_Point_2 4 3) (mk_Point_2 0 0) (1 # 2) = Done e
    /\ segments e
       = One_segment (X_segment (op1 e) (op2 e))
           (Comparison_eqb (Cartesian.f_comp_xy (op1 e) (op2 e)) SMALLER).
Proof.
  eexists. split; [ vm_compute; reflexivity | ].
  apply (single_segment_direction (K := Cartesian.kernel)
           Examples.base_64th 10 (mk_Point_2 4 3) (mk_Point_2 0 0) (1 # 2)).
  - vm_compute. reflexivity.
  - reflexivity.
Defined.

(** ** The first approximation is not negative *)

Lemma round_not_negative (m e : Z) (l : location) :
  not_negative (binary_round_aux Double.prec Double.emax false m e l).
Proof.
  pose proof (binary_round_aux_sign false m e l) as H.
  destruct (binary_round_aux Double.prec Double.emax false m e l)
    as [ s | s | | s m' e' ]; try subst s; exact I.
Qed.

Lemma sqrt_not_negative (x : double) : not_negative (Double.sqrt x).
Proof.
  destruct x as [ s | [ | ] | | [ | ] m e ]; try exact I.
  unfold Double.sqrt, SFsqrt.
  destruct (SFsqrt_core_binary _ _ _ _) as [[mz ez] lz].
  apply round_not_negative.
Qed.

Lemma fabs_not_negative (x : double) : not_negative (Double.fabs x).
Proof. destruct x; exact I. Qed.

Lemma mul_not_negative (x y : double) :
  not_negative x -> not_negative y -> not_negative (Double.mul x y).
Proof.
  destruct x as [ sx | [ | ] | | [ | ] mx ex ],
           y as [ sy | [ | ] | | [ | ] my ey ];
    simpl; intros Hx Hy; try contradiction; try exact I.
  apply round_not_negative.
Qed.

Lemma binary_round_not_negative (m : positive) (e : Z) :
  not_negative (binary_round Double.prec Double.emax false m e).
Proof.
  unfold binary_round. destruct (shl_align _ _ _) as [mz ez].
  apply round_not_negative.
Qed.

Lemma of_int_not_negative (n : Z) :
  (0 <= n)%Z -> not_negative (Double.of_int n).
Proof.
  intro H. unfold Double.of_int, binary_normalize.
  destruct n as [ | p | p ]; [ exact I | | lia ].
  apply binary_round_not_negative.
Qed.

Lemma add_half_not_negative (x : double) :
  not_negative x -> not_negative (Double.add x Double.half).
Proof.
  change Double.half with (S754_finite false 4503599627370496 (-53)).
  destruct x as [ s | [ | ] | | [ | ] m e ]; intro H;
    try contradiction; try exact I.
  unfold Double.add, SFadd. cbv beta iota zeta. unfold cond_Zopp.
  generalize (fst (shl_align m e (Z.min e (-53)))).
  generalize (fst (shl_align 4503599627370496 (-53) (Z.min e (-53)))).
  intros p1 p2. change (Z.pos p2 + Z.pos p1)%Z with (Z.pos (p2 + p1)).
  unfold binary_normalize. apply binary_round_not_negative.
Qed.

Lemma truncate_not_negative (d : double) (v : Z) :
  not_negative d -> Double.truncate d = Some v -> (0 <= v)%Z.
Proof.
  destruct d as [ s | s | | [ | ] m e ]; intros Hs H;
    unfold Double.truncate in H; try discriminate; try contradiction;
    injection H as <-; [ lia | ].
  destruct e as [ | p | p ]; cbv beta iota zeta.
  - pose proof (Z.pow_nonneg 2 0 ltac:(lia)) as Hp.
    destruct (2 ^ 0)%Z; lia.
  - pose proof (Z.pow_nonneg 2 (Z.pos p) ltac:(lia)) as Hp.
    destruct (2 ^ Z.pos p)%Z; lia.
  - apply Z.quot_pos; [ lia | ]. rewrite Z.pow_pos_fold.
    apply Z.pow_pos_nonneg; lia.
Qed.

Lemma to_NT_not_negative (d : double) (q : Q) :
  not_negative d -> Double.to_NT d = Done q -> 0 <= q.
Proof.
  destruct d as [ s | s | | [ | ] m e ]; intros Hs H;
    unfold Double.to_NT in H; try discriminate; try contradiction;
    injection H as <-; [ lra | ].
  destruct e as [ | p | p ]; cbv beta iota zeta.
  - change 0 with (inject_Z 0). rewrite <- Zle_Qle.
    pose proof (Z.pow_nonneg 2 0 ltac:(lia)) as Hp.
    destruct (2 ^ 0)%Z; lia.
  - change 0 with (inject_Z 0). rewrite <- Zle_Qle.
    pose proof (Z.pow_nonneg 2 (Z.pos p) ltac:(lia)) as Hp.
    destruct (2 ^ Z.pos p)%Z; lia.
  - unfold Qle. simpl. lia.
Qed.

Lemma halve_denom_nonnegative (fuel : nat) :
  forall (dd : double) (denom d : Z),
    halve_denom fuel dd denom = Done d -> (0 <= denom)%Z -> (0 <= d)%Z.
Proof.
  induction fuel as [ | fuel IH ]; intros dd denom d H Hd; simpl in H;
    destruct (Double.ltb _ dd); try discriminate;
    try (injection H as <-; exact Hd).
  apply IH in H; [ exact H | ].
  rewrite Z.quot_div_nonneg by lia. apply Z.div_pos; lia.
Qed.

Lemma positive_not_negative (d : double) :
  Double.ltb Double.zero d = true -> not_negative d.
Proof. destruct d as [ s | [ | ] | | [ | ] m e ]; try discriminate; intro; exact I. Qed.

(** X12: for an object with a positive [eps] and a non-negative
    denominator seed (as the constructor builds them), the error bound and
    the first approximation of the length that the [double] computation
    delivers are not negative, whatever the conversion to [double] does. *)
Theorem first_approximation_nonnegative {K : Kernel}
  (self : Approx_offset_base_2) (fuel : nat)
  (sqr_d delta_x delta_y err_bound app_d0 : Q) :
  Double.ltb Double.zero (_eps self) = true ->
  (0 <= _inv_sqrt_eps self)%Z ->
  first_approximation self fuel sqr_d delta_x delta_y
  = Done (err_bound, app_d0) ->
  0 <= err_bound /\ 0 <= app_d0.
Proof.
  intros Heps Hseed H. unfold first_approximation in H.
  bind_inv H. rename v into eb. bind_inv H. rename v into denom.
  bind_inv H. rename v into n. bind_inv H. rename v into a0.
  injection H as <- <-.
  apply positive_not_negative in Heps.
  pose proof (sqrt_not_negative (to_double sqr_d)) as Hdd.
  split.
  - apply to_NT_not_negative in Hm; [ exact Hm | ].
    repeat apply mul_not_negative; try assumption.
    + apply of_int_not_negative. lia.
    + apply fabs_not_negative.
  - apply halve_denom_nonnegative in Hm0; [ | exact Hseed ].
    unfold Double.to_int in Hm1.
    destruct (Double.truncate _) as [ t | ] eqn:Ht; [ | discriminate Hm1 ].
    destruct (_ && _); [ | discriminate Hm1 ]. injection Hm1 as <-.
    apply truncate_not_negative in Ht.
    + apply div_Done_inv in Hm2. destruct Hm2 as [Hnz ->].
      unfold NT.of_int in *.
      assert (Hd : 0 < inject_Z denom).
      { assert (denom <> 0%Z).
        { intro E. apply Hnz. rewrite E. reflexivity. }
        change 0 with (inject_Z 0). rewrite <- Zlt_Qlt. lia. }
      apply Qle_shift_div_l; [ exact Hd | ].
      rewrite Qmult_0_l. change 0 with (inject_Z 0).
      rewrite <- Zle_Qle. exact Ht.
    + apply add_half_not_negative. apply mul_not_negative; [ exact Hdd | ].
      apply of_int_not_negative. exact Hm0.
Qed.

Lemma first_approximation_nonnegative_witness :
  exists err_bound app_d0 : Q,
    first_approximation (K := Cartesian.kernel) Examples.base_0345 10
      2 1 1 = Done (err_bound, app_d0)
    /\ 0 <= err_bound /\ 0 <= app_d0.
Proof.
  do 2 eexists. split; [ vm_compute; reflexivity | ].
  apply (first_approximation_nonnegative (K := Cartesian.kernel)
           Examples.base_0345 10 2 1 1).
  - reflexivity.
  - simpl. lia.
  - vm_compute. reflexivity.
Defined.

(** ** The offset of an edge ends *)

Lemma halve_denom_more_fuel (fuel : nat) :
  forall (dd : double) (denom d : Z) (fuel' : nat),
    halve_denom fuel dd denom = Done d -> (fuel <= fuel')%nat ->
    halve_denom fuel' dd denom = Done d.
Proof.
  induction fuel as [ | fuel IH ]; intros dd denom d fuel' H Hle;
    simpl in H; destruct fuel' as [ | fuel' ]; simpl;
    destruct (Double.ltb _ dd); try discriminate; try exact H; try lia.
  apply IH; [ exact H | lia ].
Qed.

Lemma first_approximation_more_fuel {K : Kernel}
  (self : Approx_offset_base_2) (fuel fuel' : nat)
  (sqr_d delta_x delta_y : Q) (res : Q * Q) :
  first_approximation self fuel sqr_d delta_x delta_y = Done res ->
  (fuel <= fuel')%nat ->
  first_approximation self fuel' sqr_d delta_x delta_y = Done res.
Proof.
  unfold first_approximation. intros H Hle.
  bind_inv H. bind_inv H. rewrite Hm. cbn [bind].
  rewrite (halve_denom_more_fuel fuel _ _ _ fuel' Hm0 Hle). exact H.
Qed.

Lemma bind_never_out_of_fuel {A B : Type} (m : outcome A)
  (k : A -> outcome B) :
  m <> Out_of_fuel -> (forall a, k a <> Out_of_fuel) ->
  bind m k <> Out_of_fuel.
Proof.
  intros Hm Hk. destruct m as [ a | f | ]; simpl;
    [ apply Hk | discriminate | contradiction ].
Qed.

Lemma div_never_out_of_fuel (a b : Q) : NT.div a b <> Out_of_fuel.
Proof. unfold NT.div. destruct (Qeq_bool b 0); discriminate. Qed.

Lemma rotate_offset_never_out_of_fuel (x y r t : Q) :
  rotate_offset x y r t <> Out_of_fuel.
Proof. destruct (rotate_offset_Done x y r t) as [p ->]. discriminate. Qed.

Lemma bias_app_d_never_out_of_fuel (sx se : Sign) (sqr_d app_d : Q) :
  bias_app_d sx se sqr_d app_d <> Out_of_fuel.
Proof.
  unfold bias_app_d.
  destruct (Sign_eqb sx NEGATIVE), (Sign_eqb se NEGATIVE),
    (Sign_eqb se POSITIVE);
    try discriminate; apply div_never_out_of_fuel.
Qed.

(** X13: the offset of a general edge ends when the [double] computation
    has delivered a positive error bound and a positive first
    approximation: from some number of iterations on, no run is cut short
    by its loops. *)
Theorem offset_edge_terminates {K : Kernel} (self : Approx_offset_base_2)
  (fuel1 : nat) (curr next : Point_2) (r err_bound app_d0 : Q) :
  let delta_x := pt_x next - pt_x curr in
  let delta_y := pt_y next - pt_y curr in
  let sqr_d := NT.square delta_x + NT.square delta_y in
  ~ delta_x == 0 -> ~ delta_y == 0 ->
  first_approximation self fuel1 sqr_d delta_x delta_y
  = Done (err_bound, app_d0) ->
  0 < err_bound -> 0 < app_d0 ->
  exists fuel0 : nat,
    forall fuel : nat, (fuel0 <= fuel)%nat ->
      offset_edge self fuel curr next r <> Out_of_fuel.
Proof.
  intros delta_x delta_y sqr_d Hx Hy Hfirst Hb Ha.
  destruct (refine_app_d_returns delta_x delta_y err_bound
              (if Sign_eqb (NT.sign delta_x) POSITIVE
               then delta_x else - delta_x)
              (if Sign_eqb (NT.sign delta_y) POSITIVE
               then delta_y else - delta_y)
              Hx Hy Hb (abs_by_sign delta_x) (abs_by_sign delta_y)
              app_d0 Ha)
    as (n & a & e & Hrun & _ & _).
  exists (Nat.max fuel1 n). intros fuel Hle.
  rewrite offset_edge_general by assumption.
  fold delta_x delta_y. unfold sqr_d in *. unfold general_edge.
  rewrite (first_approximation_more_fuel self fuel1 fuel _ _ _ _ Hfirst)
    by lia.
  cbn [bind]. cbv beta iota zeta.
  rewrite (refine_app_d_more_fuel n _ _ _ _ _ _ _ fuel Hrun) by lia.
  cbn [bind]. cbv beta iota zeta.
  destruct (Sign_eqb (NT.sign e) ZERO).
  - apply bind_never_out_of_fuel; [ apply div_never_out_of_fuel | ].
    intro tx.
    apply bind_never_out_of_fuel; [ apply div_never_out_of_fuel | ].
    intro ty. discriminate.
  - apply bind_never_out_of_fuel; [ apply bias_app_d_never_out_of_fuel | ].
    intro u.
    apply bind_never_out_of_fuel; [ apply div_never_out_of_fuel | ].
    intro t1.
    apply bind_never_out_of_fuel; [ apply div_never_out_of_fuel | ].
    intro t2.
    apply bind_never_out_of_fuel;
      [ apply rotate_offset_never_out_of_fuel | ].
    intro p1.
    apply bind_never_out_of_fuel;
      [ apply rotate_offset_never_out_of_fuel | ].
    intro p2.
    apply bind_never_out_of_fuel.
    + destruct (assign_point _); discriminate.
    + intro mid_p. discriminate.
Qed.

Lemma offset_edge_terminates_witness :
  exists fuel0 : nat,
    forall fuel : nat, (fuel0 <= fuel)%nat ->
      offset_edge (K := Cartesian.kernel) Examples.base_0345 fuel
        (mk_Point_2 0 0) (mk_Point_2 1 3) 1 <> Out_of_fuel.
Proof.
  eapply (offset_edge_terminates (K := Cartesian.kernel)
            Examples.base_0345 5 (mk_Point_2 0 0) (mk_Point_2 1 3) 1).
  - intro H. vm_compute in H. discriminate H.
  - intro H. vm_compute in H. discriminate H.
  - vm_compute. reflexivity.
  - reflexivity.
  - reflexivity.
Defined.

(** ** The order of the two tangent half-angle values *)

Lemma used_length_side (delta_x app_err sqr_d app_d used_d : Q) :
  0 < sqr_d -> 0 < app_d -> ~ delta_x == 0 ->
  app_err == sqr_d - app_d * app_d -> ~ app_err == 0 ->
  bias_app_d (NT.sign delta_x) (NT.sign app_err) sqr_d app_d = Done used_d ->
  0 < used_d
  /\ (delta_x < 0 -> used_d * used_d < sqr_d)
  /\ (0 < delta_x -> sqr_d < used_d * used_d)
  /\ (used_d = app_d \/ (used_d * app_d == sqr_d /\ 0 < delta_x)
      \/ (used_d * app_d == sqr_d /\ delta_x < 0)).
Proof.
  intros HS Ha Hx Herr Hnz Hbias.
  destruct (bias_app_d_value delta_x app_err sqr_d app_d)
    as (u & Hu & Hw & Hnw); try assumption; try lra.
  rewrite Hbias in Hu. injection Hu as <-.
  assert (Hq : sqr_d / app_d * app_d == sqr_d) by (field; lra).
  assert (Hqpos : 0 < sqr_d / app_d) by (apply Qlt_shift_div_l; lra).
  destruct (Qlt_le_dec delta_x 0) as [Nx | Px],
           (Qlt_le_dec app_err 0) as [Ne | Pe].
  - rewrite Hw in * by (left; split; assumption).
    revert Hq Hqpos. generalize (sqr_d / app_d). intros q Hq Hqpos.
    repeat split; try lra; try nra; try (right; right; split; lra).
  - rewrite Hnw in * by (intros [ [A B] | [A B] ]; lra).
    repeat split; try lra; try (left; reflexivity).
  - rewrite Hnw in * by (intros [ [A B] | [A B] ]; lra).
    repeat split; try lra; try (left; reflexivity).
  - rewrite Hw in * by (right; split; lra).
    revert Hq Hqpos. generalize (sqr_d / app_d). intros q Hq Hqpos.
    repeat split; try lra; try nra; try (right; left; split; lra).
Qed.

(** X14: in the two-segment case the value named [lower_tan_half_phi] is
    below the one named [upper_tan_half_phi] whenever the length used
    exceeds [- delta_y], and this is so for every edge with [delta_x > 0]
    or [delta_y > 0]; when the length used is below [- delta_y] (possible
    only after a replacement by [sqr_d / app_d] with [delta_x < 0] and
    [delta_y < 0]) the order is reversed: the upper value is negative and
    the lower one positive. *)
Theorem tangent_half_angle_order {K : Kernel} (self : Approx_offset_base_2)
  (fuel : nat) (curr next : Point_2) (r delta_x delta_y : Q)
  (e : edge_offset) (err_bound app_d app_err used_d : Q)
  (lower_tan_half_phi upper_tan_half_phi : Q) :
  let sqr_d := NT.square delta_x + NT.square delta_y in
  ~ delta_x == 0 -> ~ delta_y == 0 ->
  two_segment_run self fuel curr next r delta_x delta_y sqr_d
    (NT.sign delta_x) (NT.sign delta_y) e err_bound app_d app_err used_d ->
  NT.div (used_d - delta_y) (- delta_x) = Done lower_tan_half_phi ->
  NT.div (- delta_x) (used_d + delta_y) = Done upper_tan_half_phi ->
  (0 < used_d + delta_y -> lower_tan_half_phi < upper_tan_half_phi)
  /\ (used_d + delta_y < 0 ->
      upper_tan_half_phi < 0 /\ 0 < lower_tan_half_phi
      /\ delta_x < 0 /\ delta_y < 0)
  /\ (0 < delta_x \/ 0 < delta_y -> 0 < used_d + delta_y).
Proof.
  intros sqr_d Hx Hy R Hlow Hup.
  destruct (two_segment_run_accepted self fuel curr next r delta_x delta_y
              e err_bound app_d app_err used_d R)
    as (Herr & Hacc & Hpos & Hnz).
  fold sqr_d in Herr, Hacc. destruct Hacc as (_ & Hax & Hay).
  assert (HS : 0 < sqr_d) by (unfold sqr_d, NT.square; nra).
  assert (Herr' : app_err == sqr_d - app_d * app_d)
    by (rewrite Herr; reflexivity).
  destruct (used_length_side delta_x app_err sqr_d app_d used_d HS Hpos Hx
              Herr' Hnz (run_bias _ _ _ _ _ _ _ _ _ _ _ _ _ _ _ R))
    as (Hu & Hlo & Hhi & Hcase).
  apply div_Done_inv in Hlow. destruct Hlow as [_ ->].
  apply div_Done_inv in Hup. destruct Hup as [Hd ->].
  assert (E1 : (used_d - delta_y) / - delta_x * - delta_x
               == used_d - delta_y) by (field; lra).
  assert (E2 : - delta_x / (used_d + delta_y) * (used_d + delta_y)
               == - delta_x) by (field; exact Hd).
  revert E1 E2. generalize ((used_d - delta_y) / - delta_x).
  generalize (- delta_x / (used_d + delta_y)). intros t2 t1 E1 E2.
  assert (Hsq : sqr_d == delta_x * delta_x + delta_y * delta_y)
    by (unfold sqr_d, NT.square; reflexivity).
  assert (Hady : - delta_y < app_d /\ delta_y < app_d).
  { revert Hay. apply Qabs_case; intros; lra. }
  assert (Hadx : - delta_x < app_d /\ delta_x < app_d).
  { revert Hax. apply Qabs_case; intros; lra. }
  assert (Hgood : 0 < delta_x \/ 0 < delta_y -> 0 < used_d + delta_y).
  { intros [ Px | Py ]; [ | lra ].
    destruct Hcase as [ -> | [ [Hq _] | [_ Nx] ] ]; [ lra | | lra ].
    assert (app_d < used_d) by nra. lra. }
  split; [ | split; [ | exact Hgood ] ].
  - intro Hsum.
    destruct (Qlt_le_dec delta_x 0) as [ Nx | Px ].
    + specialize (Hlo Nx).
      assert (P : (used_d - delta_y) * (used_d + delta_y)
                  < delta_x * delta_x) by nra.
      apply Qnot_le_lt. intro Hle.
      assert (t2 * (- delta_x) <= t1 * (- delta_x)) by nra.
      assert (t2 * (- delta_x) * (used_d + delta_y)
              <= t1 * (- delta_x) * (used_d + delta_y)) by nra.
      nra.
    + assert (Px' : 0 < delta_x) by lra. specialize (Hhi Px').
      assert (P : delta_x * delta_x
                  < (used_d - delta_y) * (used_d + delta_y)) by nra.
      apply Qnot_le_lt. intro Hle.
      assert (t1 * (- delta_x) <= t2 * (- delta_x)) by nra.
      assert (t1 * (- delta_x) * (used_d + delta_y)
              <= t2 * (- delta_x) * (used_d + delta_y)) by nra.
      nra.
  - intro Hsum.
    assert (Nx : delta_x < 0).
    { destruct (Qlt_le_dec delta_x 0); [ assumption | ].
      assert (0 < delta_x) by lra. lra. }
    assert (Ny : delta_y < 0) by lra.
    repeat split; try assumption.
    + apply Qnot_le_lt. intro Hle. nra.
    + apply Qnot_le_lt. intro Hle. nra.
Qed.

Lemma tangent_half_angle_order_witness :
  exists lower_tan_half_phi upper_tan_half_phi : Q,
    NT.div ((NT.square (1 - 0) + NT.square (1 - 0)) / (7 # 5) - (1 - 0))
      (- (1 - 0)) = Done lower_tan_half_phi
    /\ NT.div (- (1 - 0))
         ((NT.square (1 - 0) + NT.square (1 - 0)) / (7 # 5) + (1 - 0))
       = Done upper_tan_half_phi
    /\ lower_tan_half_phi < upper_tan_half_phi.
Proof.
  do 2 eexists. split; [ vm_compute; reflexivity | ].
  split; [ vm_compute; reflexivity | ].
  assert (Hx : ~ 1 - 0 == 0) by (intro H; vm_compute in H; discriminate H).
  assert (R : exists e,
             offset_edge (K := Cartesian.kernel) Examples.base_0345 10
               (mk_Point_2 0 0) (mk_Point_2 1 1) 1 = Done e
             /\
             two_segment_run (K := Cartesian.kernel) Examples.base_0345 10
               (mk_Point_2 0 0) (mk_Point_2 1 1) 1 (1 - 0) (1 - 0)
               (NT.square (1 - 0) + NT.square (1 - 0))
               (NT.sign (1 - 0)) (NT.sign (1 - 0)) e
               (5825029861531207 # 144115188075855872) (7 # 5)
               (NT.square (1 - 0) + NT.square (1 - 0) - NT.square (7 # 5))
               ((NT.square (1 - 0) + NT.square (1 - 0)) / (7 # 5))).
  { eexists. split; [ vm_compute; reflexivity | ]. constructor.
    - exists (7 # 5). split; vm_compute; reflexivity.
    - reflexivity.
    - vm_compute. reflexivity.
    - do 2 eexists. repeat split; vm_compute; reflexivity. }
  destruct R as (e & _ & R).
  apply (proj1 (tangent_half_angle_order (K := Cartesian.kernel)
                  Examples.base_0345 10 (mk_Point_2 0 0) (mk_Point_2 1 1) 1
                  (1 - 0) (1 - 0) e _ _ _ _ _ _ Hx Hx R
                  ltac:(vm_compute; reflexivity)
                  ltac:(vm_compute; reflexivity))).
  reflexivity.
Defined.

(** The reversed order does occur: for [eps = 0.2] and the edge from (0,0)
    to (-1, -10.4) the loop accepts [21/2], which is above the root; the
    length used is [sqr_d / (21/2)], which is below [10.4]. *)
Lemma tangent_order_reversed_example :
  construct CrossingExample.eps_02 = Done CrossingExample.base_02
  /\ exists e : edge_offset,
      offset_edge (K := Cartesian.kernel) CrossingExample.base_02 10
        CrossingExample.source CrossingExample.target 1 = Done e
      /\ two_segment_run (K := Cartesian.kernel) CrossingExample.base_02 10
           CrossingExample.source CrossingExample.target 1
           (- (1) - 0) (- (104 # 10) - 0)
           (NT.square (- (1) - 0) + NT.square (- (104 # 10) - 0))
           (NT.sign (- (1) - 0)) (NT.sign (- (104 # 10) - 0)) e
           (6131055562297062 # 70368744177664) (21 # 2)
           (NT.square (- (1) - 0) + NT.square (- (104 # 10) - 0)
            - NT.square (21 # 2))
           ((NT.square (- (1) - 0) + NT.square (- (104 # 10) - 0))
            / (21 # 2))
      /\ (NT.square (- (1) - 0) + NT.square (- (104 # 10) - 0)) / (21 # 2)
         + (- (104 # 10) - 0) < 0.
Proof.
  split; [ vm_compute; reflexivity | ].
  eexists. split; [ vm_compute; reflexivity | ]. split.
  - constructor.
    + exists (21 # 2). split; vm_compute; reflexivity.
    + reflexivity.
    + vm_compute. reflexivity.
    + do 2 eexists. repeat split; vm_compute; reflexivity.
  - reflexivity.
Qed.

(** ** The edges of a polygon whose cycle is returned *)

Lemma offset_edge_Done_distinct {K : Kernel} (self : Approx_offset_base_2)
  (fuel : nat) (p q : Point_2) (r : Q) (e : edge_offset) :
  offset_edge self fuel p q r = Done e -> ~ Point_equiv p q.
Proof.
  intros H [Ex Ey]. unfold offset_edge in H.
  assert (Zx : Sign_eqb (NT.sign (pt_x q - pt_x p)) ZERO = true)
    by (apply sign_ZERO_iff; lra).
  assert (Zy : Sign_eqb (NT.sign (pt_y q - pt_y p)) ZERO = true)
    by (apply sign_ZERO_iff; lra).
  rewrite Zx, Zy in H. discriminate H.
Qed.

Section Processed.

Context {K : Kernel} {T : Traits}.
Context {It : Type} {OI : OutputIterator It}.
Variable self : Approx_offset_base_2.
Variable fuel : nat.
Variable pgn : Polygon_2.
Variable r : Q.
Variable cycle_id : Z.

Lemma visit_edge_processed (forward : bool) (st st' : traversal) :
  visit_edge self fuel pgn r cycle_id forward 0 st = Done st' ->
  exists (p q : Point_2) (e : edge_offset),
    nth_error pgn (t_curr st) = Some p
    /\ nth_error pgn (if forward then circ_incr pgn (t_next st)
                      else circ_decr pgn (t_next st)) = Some q
    /\ offset_edge self fuel p q r = Done e.
Proof.
  unfold visit_edge. intro H.
  bind_inv H. rename v into p. bind_inv H. rename v into q.
  bind_inv H. rename v into e. clear H.
  exists p, q, e. unfold circ_deref in Hm, Hm0.
  destruct (nth_error pgn (t_curr st)); [ | discriminate Hm ].
  injection Hm as ->.
  destruct (nth_error pgn _); [ | discriminate Hm0 ].
  injection Hm0 as ->. repeat split. exact Hm1.
Qed.

Lemma traverse_forward_edges (steps : nat) :
  forall (st st' : traversal),
    t_curr st = t_next st ->
    traverse self fuel pgn r cycle_id true 0 steps st = Done st' ->
    forall i : nat, (t_curr st <= i < length pgn)%nat ->
      exists (p q : Point_2) (e : edge_offset),
        nth_error pgn i = Some p
        /\ nth_error pgn (circ_incr pgn i) = Some q
        /\ offset_edge self fuel p q r = Done e.
Proof.
  induction steps as [ | steps IH ]; intros st st' Hcn H i Hi; simpl in H;
    [ discriminate | ].
  bind_inv H. rename v into st1.
  pose proof (visit_edge_processed true st st1 Hm) as Hedge.
  apply visit_edge_cursor in Hm. destruct Hm as [Hc Hnx].
  rewrite <- Hcn in Hc, Hedge.
  destruct (Nat.eq_dec i (t_curr st)) as [ -> | Hne ]; [ exact Hedge | ].
  unfold circ_incr in Hc.
  destruct (Nat.ltb_spec (S (t_curr st)) (length pgn)) as [ Hlt | Hge ];
    [ | lia ].
  rewrite Hc in H. simpl in H.
  apply (IH st1 st'); [ congruence | exact H | lia ].
Qed.

Lemma traverse_backward_edges (steps : nat) :
  forall (st st' : traversal),
    t_curr st = t_next st -> (1 <= t_curr st)%nat ->
    traverse self fuel pgn r cycle_id false 0 steps st = Done st' ->
    forall i : nat, (1 <= i <= t_curr st)%nat ->
      exists (p q : Point_2) (e : edge_offset),
        nth_error pgn i = Some p
        /\ nth_error pgn (circ_decr pgn i) = Some q
        /\ offset_edge self fuel p q r = Done e.
Proof.
  induction steps as [ | steps IH ]; intros st st' Hcn Hpos H i Hi;
    simpl in H; [ discriminate | ].
  bind_inv H. rename v into st1.
  pose proof (visit_edge_processed false st st1 Hm) as Hedge.
  apply visit_edge_cursor in Hm. destruct Hm as [Hc Hnx].
  rewrite <- Hcn in Hc, Hedge.
  destruct (Nat.eq_dec i (t_curr st)) as [ -> | Hne ]; [ exact Hedge | ].
  destruct (t_curr st) as [ | c ] eqn:Ec; [ lia | ].
  simpl in Hc. destruct c as [ | c ]; [ lia | ].
  rewrite Hc in H. simpl in H.
  apply (IH st1 st'); [ congruence | lia | exact H | lia ].
Qed.

End Processed.

(** X15: a run of [_offset_polygon] that returns has computed the offset
    of every edge: the polygon has a vertex, and no vertex coincides with
    the next one around the polygon (so there are at least two vertices);
    a polygon with a zero-length edge never yields a cycle, in either
    orientation. *)
Theorem returned_cycle_has_proper_edges {K : Kernel} {T : Traits}
  {It : Type} {OI : OutputIterator It}
  (self : Approx_offset_base_2) (fuel : nat) (pgn : Polygon_2) (r : Q)
  (cycle_id : Z) (oi out : It) :
  _offset_polygon self fuel pgn r cycle_id oi = Done out ->
  pgn <> []
  /\ forall (i : nat) (p q : Point_2),
      nth_error pgn i = Some p ->
      nth_error pgn (circ_incr pgn i) = Some q ->
      ~ Point_equiv p q.
Proof.
  intro H. unfold _offset_polygon in H.
  bind_inv H. rename v into st. bind_inv H. clear H.
  split.
  { intro E. subst pgn. discriminate Hm0. }
  intros i p q Hp Hq.
  assert (Hi : (i < length pgn)%nat)
    by (apply nth_error_Some; congruence).
  destruct (Orientation_eqb (orientation pgn) COUNTERCLOCKWISE).
  - eapply traverse_forward_edges with (i := i) in Hm;
      [ | reflexivity | simpl; lia ].
    destruct Hm as (p' & q' & e & Hp' & Hq' & He).
    rewrite Hp in Hp'. injection Hp' as <-.
    rewrite Hq in Hq'. injection Hq' as <-.
    apply (offset_edge_Done_distinct self fuel p q r e He).
  - destruct fuel as [ | steps ]; [ discriminate Hm | ].
    simpl in Hm. bind_inv Hm. rename v0 into st1.
    pose proof (visit_edge_processed self (S steps) pgn r cycle_id false
                  _ st1 Hm1) as (p0 & q0 & e0 & Hp0 & Hq0 & He0).
    apply visit_edge_cursor in Hm1. destruct Hm1 as [Hc Hnx].
    cbn [t_curr t_next] in Hp0, Hq0, Hc. unfold circ_decr in Hq0, Hc.
    intro Hpq. apply Point_equiv_sym in Hpq. revert Hpq.
    unfold circ_incr in Hq.
    destruct (Nat.ltb_spec (S i) (length pgn)) as [ Hlt | Hge ].
    + destruct (Nat.eqb_spec (t_curr st1) 0) as [ E0 | N0 ]; [ lia | ].
      eapply traverse_backward_edges with (i := S i) in Hm;
        [ | symmetry; exact Hnx | lia | lia ].
      destruct Hm as (p' & q' & e & Hp' & Hq' & He).
      unfold circ_decr in Hq'.
      rewrite Hq in Hp'. injection Hp' as <-.
      rewrite Hp in Hq'. injection Hq' as <-.
      apply (offset_edge_Done_distinct self (S steps) q p r e He).
    + assert (Ei : pred (length pgn) = i) by lia.
      rewrite Ei in Hq0.
      rewrite Hq in Hp0. injection Hp0 as <-.
      rewrite Hp in Hq0. injection Hq0 as <-.
      apply (offset_edge_Done_distinct self (S steps) q p r e0 He0).
Qed.

Lemma returned_cycle_has_proper_edges_witness :
  Examples.triangle_3_4_5 <> []
  /\ forall (i : nat) (p q : Point_2),
      nth_error Examples.triangle_3_4_5 i = Some p ->
      nth_error Examples.triangle_3_4_5
        (circ_incr Examples.triangle_3_4_5 i) = Some q ->
      ~ Point_equiv p q.
Proof.
  eapply (returned_cycle_has_proper_edges (K := Cartesian.kernel)
            (T := Cartesian.traits) Examples.base_64th 10
            Examples.triangle_3_4_5 (1 # 2) 7 (back_inserter [])).
  vm_compute. reflexivity.
Defined.

(** The object of the further example is the one the constructor builds. *)
Lemma construct_more_examples :
  construct MoreExamples.eps_1 = Done MoreExamples.base_1.
Proof. vm_compute. reflexivity. Qed.
